(** * DynamicCharAtlas: the LRU glyph atlas of the canvas renderer

    A shallow embedding of [DynamicCharAtlas] (the dynamic character
    atlas: [mapShift], [getGlyphCacheKey], the constructor, [draw],
    [_canCache], [_toCoordinates], [_drawFromCache], [_drawToCache]) and
    the properties of its cache protocol.

    Conventions of the embedding.
    - A JavaScript string is the list of its UTF-16 code units.
    - The integer-valued numbers of the program (colour ids, slot indices,
      pixel coordinates, sizes) are in [Z].  [Math.floor (a / b)] is
      [Z.div] and [a % b] is [Z.rem]; both agree with JavaScript when the
      divisor is not zero (a grid without columns has no slot, and [draw]
      never computes the coordinates of one).
    - A [Map] is the list of its entries in insertion order, oldest first.
    - A call that throws yields [Throw].  [draw] gives the completion of
      a call alone: an uncaught exception ends a run of [drawAll].  The
      object is mutated in place and nothing is undone when a call
      throws; [drawOutcome] gives, next to the completion, the object as
      the call leaves it, for a caller that catches the exception and
      goes on using the atlas. *)

From Stdlib Require Import String Ascii.
From Stdlib Require Import ZArith List Bool Lia Permutation.
From Stdlib Require Decimal DecimalZ QArith_base Qround.
Import ListNotations.
Local Open Scope Z_scope.

Set Implicit Arguments.

(* ------------------------------------------------------------------ *)
(** ** JavaScript strings *)

Module JsString.
Import Decimal.

(** One UTF-16 code unit. *)
Definition codeUnit := Z.

Definition jsstring := list codeUnit.

Definition eq_dec : forall a b : jsstring, {a = b} + {a <> b} :=
  list_eq_dec Z.eq_dec.

Definition eqb (a b : jsstring) : bool := if eq_dec a b then true else false.

(** A string literal of the source, as code units. *)
Fixpoint lit (s : string) : jsstring :=
  match s with
  | EmptyString => []
  | String a r => Z.of_N (N_of_ascii a) :: lit r
  end.

(** [s.charCodeAt(0)]: [None] stands for [NaN] (the empty string). *)
Definition charCodeAt0 (s : jsstring) : option Z :=
  match s with
  | [] => None
  | c :: _ => Some c
  end.

Definition isHighSurrogate (c : codeUnit) : bool := (0xD800 <=? c) && (c <=? 0xDBFF).
Definition isLowSurrogate (c : codeUnit) : bool := (0xDC00 <=? c) && (c <=? 0xDFFF).

(** The code point of the first character of a string, in the words of
    the spec ("character code point"): a surrogate pair stands for one
    code point above [0xFFFF], any other code unit for itself.  This is
    [s.codePointAt(0)]; [None] when the string is empty. *)
Definition codePointAt0 (s : jsstring) : option Z :=
  match s with
  | [] => None
  | [c] => Some c
  | hi :: lo :: _ =>
    if isHighSurrogate hi && isLowSurrogate lo
    then Some (0x10000 + (hi - 0xD800) * 0x400 + (lo - 0xDC00))
    else Some hi
  end.

(** Code unit of a decimal digit. *)
Definition digitCode (n : Z) : codeUnit := 48 + n.

Fixpoint uintCodes (d : Decimal.uint) : jsstring :=
  match d with
  | Nil => []
  | D0 r => digitCode 0 :: uintCodes r
  | D1 r => digitCode 1 :: uintCodes r
  | D2 r => digitCode 2 :: uintCodes r
  | D3 r => digitCode 3 :: uintCodes r
  | D4 r => digitCode 4 :: uintCodes r
  | D5 r => digitCode 5 :: uintCodes r
  | D6 r => digitCode 6 :: uintCodes r
  | D7 r => digitCode 7 :: uintCodes r
  | D8 r => digitCode 8 :: uintCodes r
  | D9 r => digitCode 9 :: uintCodes r
  end.

Definition minusCode : codeUnit := 45.
Definition underscoreCode : codeUnit := 95.

Definition intCodes (d : Decimal.int) : jsstring :=
  match d with
  | Pos u => uintCodes u
  | Neg u => minusCode :: uintCodes u
  end.

(** [`${n}`] for an integer-valued number [n] (of magnitude below
    [10^21], where JavaScript writes all the digits): its decimal
    numeral, with a leading minus sign when negative. *)
Definition ofNumber (n : Z) : jsstring := intCodes (Z.to_int n).

(** [`${b ? 0 : 1}`]. *)
Definition ofFlag (b : bool) : jsstring :=
  if b then [digitCode 0] else [digitCode 1].

End JsString.

Import JsString.

(* ------------------------------------------------------------------ *)
(** ** Glyph identifiers and cache keys *)

(** [IGlyphIdentifier], with the five fields the atlas reads. *)
Record IGlyphIdentifier : Type := mkGlyph {
  char : jsstring;
  bg : Z;
  fg : Z;
  bold : bool;
  dim : bool
}.

Definition GlyphCacheKey := jsstring.

(** [getGlyphCacheKey]:
    [`${glyph.bg}_${glyph.fg}_${glyph.bold ? 0 : 1}${glyph.dim ? 0 : 1}${glyph.char}`]. *)
Definition getGlyphCacheKey (glyph : IGlyphIdentifier) : GlyphCacheKey :=
  ofNumber (bg glyph) ++ [underscoreCode] ++
  ofNumber (fg glyph) ++ [underscoreCode] ++
  ofFlag (bold glyph) ++ ofFlag (dim glyph) ++ char glyph.

(** The part of the key written before the character payload. *)
Definition keyHeader (glyph : IGlyphIdentifier) : jsstring :=
  ofNumber (bg glyph) ++ [underscoreCode] ++
  ofNumber (fg glyph) ++ [underscoreCode] ++
  ofFlag (bold glyph) ++ ofFlag (dim glyph).

(* ------------------------------------------------------------------ *)
(** ** Maps in insertion order *)

Module JsMap.
Section Ops.
Variable V : Type.

(** Entries in insertion order: the head is the oldest entry. *)
Definition t := list (GlyphCacheKey * V).

Definition hasKey (k : GlyphCacheKey) (e : GlyphCacheKey * V) : bool :=
  eqb (fst e) k.

(** [map.get(k)]; [None] is [undefined]. *)
Definition get (k : GlyphCacheKey) (m : t) : option V :=
  match find (hasKey k) m with
  | Some e => Some (snd e)
  | None => None
  end.

(** [map.delete(k)]. *)
Definition delete (k : GlyphCacheKey) (m : t) : t :=
  filter (fun e => negb (hasKey k e)) m.

(** [map.set(k, v)]: a present key keeps its place and takes the new
    value, an absent key is appended. *)
Fixpoint set (k : GlyphCacheKey) (v : V) (m : t) : t :=
  match m with
  | [] => [(k, v)]
  | e :: r => if hasKey k e then (k, v) :: r else e :: set k v r
  end.

(** [map.size]. *)
Definition size (m : t) : Z := Z.of_nat (length m).

(** [map.entries().next().value]; [None] is [undefined]. *)
Definition firstEntry (m : t) : option (GlyphCacheKey * V) :=
  match m with
  | [] => None
  | e :: _ => Some e
  end.

Definition keys (m : t) : list GlyphCacheKey := map fst m.
Definition values (m : t) : list V := map snd m.
End Ops.
End JsMap.

(** [mapShift]: removes and returns the oldest entry of a map.  The
    result is paired with the map as the call leaves it; [None] is the
    [undefined] returned for an empty map. *)
Definition mapShift (V : Type) (m : JsMap.t V)
  : option (GlyphCacheKey * V) * JsMap.t V :=
  match JsMap.firstEntry m with
  | None => (None, m)
  | Some entry => (Some entry, JsMap.delete (fst entry) m)
  end.

(* ------------------------------------------------------------------ *)
(** ** Completions *)

Inductive JsError : Type := TypeError.

Inductive completion (A : Type) : Type :=
  | Normal (a : A)
  | Throw (e : JsError).

Arguments Normal {A} a.
Arguments Throw {A} e.

Definition bind (A B : Type) (c : completion A) (k : A -> completion B)
  : completion B :=
  match c with
  | Normal a => k a
  | Throw e => Throw e
  end.

Notation "x <- c ;; k" := (bind c (fun x => k))
  (at level 61, c at next level, right associativity).

(** Reading a property of [v]: a [TypeError] when [v] is [undefined]. *)
Definition member (A : Type) (v : option A) : completion A :=
  match v with
  | Some a => Normal a
  | None => Throw TypeError
  end.

(** [a[i]] on an array; [None] is [undefined]. *)
Definition arrayGet (A : Type) (a : list A) (i : Z) : option A :=
  if i <? 0 then None else nth_error a (Z.to_nat i).

(* ------------------------------------------------------------------ *)
(** ** Pixels, image data and the atlas canvas *)

Record Pixel : Type := mkPixel { red : Z; green : Z; blue : Z; alpha : Z }.

Definition transparentBlack : Pixel := mkPixel 0 0 0 0.

(** [ImageData]: [imgData] holds the pixels row by row. *)
Record ImageData : Type := mkImageData {
  imgWidth : Z;
  imgHeight : Z;
  imgData : list Pixel
}.

(** A canvas with its bitmap. *)
Record Canvas : Type := mkCanvas {
  cvWidth : Z;
  cvHeight : Z;
  cvPixel : Z -> Z -> Pixel
}.

Definition zrange (n : Z) : list Z := map Z.of_nat (seq 0 (Z.to_nat n)).

Definition inRect (x y w h px py : Z) : bool :=
  (x <=? px) && (px <? x + w) && (y <=? py) && (py <? y + h).

(** The pixel of a canvas at a position; transparent outside its bitmap. *)
Definition pixelAt (cv : Canvas) (px py : Z) : Pixel :=
  if inRect 0 0 (cvWidth cv) (cvHeight cv) px py then cvPixel cv px py
  else transparentBlack.

(** The pixels of the rectangle [(sx, sy, sw, sh)] of a bitmap, row by row. *)
Definition readRect (pix : Z -> Z -> Pixel) (sx sy sw sh : Z) : ImageData :=
  mkImageData sw sh
    (flat_map (fun j => map (fun i => pix (sx + i) (sy + j)) (zrange sw))
              (zrange sh)).

Definition imagePixel (img : ImageData) (i j : Z) : Pixel :=
  nth (Z.to_nat (j * imgWidth img + i)) (imgData img) transparentBlack.

(** [ctx.putImageData(img, dx, dy)]: the pixels of [img] replace those of
    the canvas, without blending; what falls outside the canvas is
    dropped. *)
Definition putImageData (cv : Canvas) (img : ImageData) (dx dy : Z) : Canvas :=
  mkCanvas (cvWidth cv) (cvHeight cv)
    (fun px py =>
       if inRect 0 0 (cvWidth cv) (cvHeight cv) px py
          && inRect dx dy (imgWidth img) (imgHeight img) px py
       then imagePixel img (px - dx) (py - dy)
       else cvPixel cv px py).

(** A blank canvas: [document.createElement('canvas')] with its size set. *)
Definition createCanvas (w h : Z) : Canvas :=
  mkCanvas w h (fun _ _ => transparentBlack).

(** The destination context of [draw], as the list of the [drawImage]
    calls it received: the source pixels and the destination rectangle. *)
Inductive CtxOp : Type :=
  | DrawImage (src : ImageData) (dx dy dw dh : Z).

Definition Ctx := list CtxOp.

(** [ctx.drawImage(canvas, sx, sy, sw, sh, dx, dy, dw, dh)]. *)
Definition drawImage (ctx : Ctx) (cv : Canvas) (sx sy sw sh dx dy dw dh : Z)
  : Ctx :=
  ctx ++ [DrawImage (readRect (pixelAt cv) sx sy sw sh) dx dy dw dh].

(* ------------------------------------------------------------------ *)
(** ** Colours and configuration *)

(** Modelled from the spec: the declaration of [IColor] is not among the
    sources.  [css] is the field the atlas reads; [rgba] stands for the
    "renderable color representation" of section 6, the channels packed
    as [0xRRGGBBAA]. *)
Record IColor : Type := mkColor { css : jsstring; rgba : Z }.

(** Modelled from the spec: the three colour channels of an [IColor],
    read from its packed representation (the declaration is not among
    the sources). *)
Definition colorRed (c : IColor) : Z := Z.land (Z.shiftr (rgba c) 24) 255.
Definition colorGreen (c : IColor) : Z := Z.land (Z.shiftr (rgba c) 16) 255.
Definition colorBlue (c : IColor) : Z := Z.land (Z.shiftr (rgba c) 8) 255.

(** [config.colors], with the three members the atlas reads. *)
Record IColorSet : Type := mkColorSet {
  foreground : IColor;
  background : IColor;
  ansi : list IColor
}.

(** Modelled from the spec: a pixel "exactly matching" a colour (section
    4.4, step 4) has its three colour channels. *)
Definition matchesColor (c : IColor) (p : Pixel) : bool :=
  (red p =? colorRed c) && (green p =? colorGreen c) && (blue p =? colorBlue c).

(** Modelled from the spec: what [clearColor] does to one pixel; a
    matching pixel becomes fully transparent (alpha 0), any other pixel
    is left intact. *)
Definition clearPixel (c : IColor) (p : Pixel) : Pixel :=
  if matchesColor c p then mkPixel (red p) (green p) (blue p) 0 else p.

(** Modelled from the spec: [clearColor] (CharAtlasGenerator), which is
    not among the sources.  Section 4.4, step 4: every pixel of the
    buffer exactly matching the fill background colour becomes fully
    transparent, every other pixel is left intact. *)
Definition clearColor (img : ImageData) (c : IColor) : ImageData :=
  mkImageData (imgWidth img) (imgHeight img) (map (clearPixel c) (imgData img)).

Definition TEXTURE_WIDTH : Z := 1024.
Definition TEXTURE_HEIGHT : Z := 1024.

(** [glyph.char.charCodeAt(0) < 256]; a comparison with [NaN] is false. *)
Definition _canCache (glyph : IGlyphIdentifier) : bool :=
  match charCodeAt0 (char glyph) with
  | Some c => c <? 256
  | None => false
  end.

(** The calls made on the 2D context of the scratch canvas; [number] is
    the type of the floating-point numbers. *)
Inductive CanvasOp (number : Type) : Type :=
  | Save
  | Restore
  | SetFillStyle (style : jsstring)
  | FillRect (x y w h : Z)
  | SetFont (font : jsstring)
  | SetTextBaseline (baseline : jsstring)
  | SetGlobalAlpha (a : number)
  | FillText (text : jsstring) (x y : Z).

Arguments Save {number}.
Arguments Restore {number}.
Arguments SetFillStyle {number} style.
Arguments FillRect {number} x y w h.
Arguments SetFont {number} font.
Arguments SetTextBaseline {number} baseline.
Arguments SetGlobalAlpha {number} a.
Arguments FillText {number} text x y.

(** What the sources do not fix, taken as parameters: the floating-point
    numbers of the configuration with their product and their conversion
    to a string, the two constants imported from [./Types], and the
    browser's rasterizer, which gives the pixel at a position of a canvas
    of the given width and height after the given calls on its context. *)
Record Host : Type := mkHost {
  number : Type;
  numberMul : number -> number -> number;
  numberToString : number -> jsstring;
  DIM_OPACITY : number;
  INVERTED_DEFAULT_COLOR : Z;
  render : Z -> Z -> list (CanvasOp number) -> Z -> Z -> Pixel
}.

Section Atlas.

Variable host : Host.

(** [ICharAtlasConfig], with the members the atlas reads. *)
Record ICharAtlasConfig : Type := mkConfig {
  fontSize : number host;
  fontFamily : jsstring;
  devicePixelRatio : number host;
  scaledCharWidth : Z;
  scaledCharHeight : Z;
  colors : IColorSet
}.

Definition Op := CanvasOp (number host).

(** [ctx.font] as last assigned, read from the calls newest first (the
    initial value when none assigned it). *)
Fixpoint lastFont (newestFirst : list Op) : jsstring :=
  match newestFirst with
  | [] => lit "10px sans-serif"
  | SetFont f :: _ => f
  | _ :: r => lastFont r
  end.

Definition currentFont (ops : list Op) : jsstring := lastFont (rev ops).

(** The fields of [DynamicCharAtlas].  [_cacheCanvas] is the atlas
    texture with what [_cacheCtx] has written to it; [_tmpCanvas] is the
    size of the scratch canvas and [_tmpCtx] the calls made on its
    context so far. *)
Record DynamicCharAtlas : Type := mkAtlas {
  _config : ICharAtlasConfig;
  _cacheMap : JsMap.t Z;
  _cacheCanvas : Canvas;
  _tmpCanvas : Z * Z;
  _tmpCtx : list Op;
  _capacity : Z;
  _width : Z;
  _height : Z
}.

Definition withCacheMap (this : DynamicCharAtlas) (m : JsMap.t Z)
  : DynamicCharAtlas :=
  mkAtlas (_config this) m (_cacheCanvas this) (_tmpCanvas this)
          (_tmpCtx this) (_capacity this) (_width this) (_height this).

Definition withCanvases (this : DynamicCharAtlas) (cache : Canvas)
           (tmp : list Op) : DynamicCharAtlas :=
  mkAtlas (_config this) (_cacheMap this) cache (_tmpCanvas this)
          tmp (_capacity this) (_width this) (_height this).

(** The constructor. *)
Definition newDynamicCharAtlas (config : ICharAtlasConfig) : DynamicCharAtlas :=
  let width := TEXTURE_WIDTH / scaledCharWidth config in
  let height := TEXTURE_HEIGHT / scaledCharHeight config in
  mkAtlas config []
          (createCanvas TEXTURE_WIDTH TEXTURE_HEIGHT)
          (scaledCharWidth config, scaledCharHeight config)
          []
          (width * height) width height.

(** [_toCoordinates]. *)
Definition _toCoordinates (this : DynamicCharAtlas) (index : Z) : Z * Z :=
  (Z.rem index (_width this) * scaledCharWidth (_config this),
   (index / _width this) * scaledCharHeight (_config this)).

(** [_drawFromCache]. *)
Definition _drawFromCache (this : DynamicCharAtlas) (ctx : Ctx)
           (index x y : Z) : Ctx :=
  let '(cacheX, cacheY) := _toCoordinates this index in
  drawImage ctx (_cacheCanvas this)
            cacheX cacheY
            (scaledCharWidth (_config this)) (scaledCharHeight (_config this))
            x y
            (scaledCharWidth (_config this)) (scaledCharHeight (_config this)).

(** [ctx.getImageData(sx, sy, sw, sh)] on the scratch canvas. *)
Definition getImageData (size : Z * Z) (ops : list Op)
           (sx sy sw sh : Z) : ImageData :=
  readRect (render host (fst size) (snd size) ops) sx sy sw sh.

(** The colour chosen for the background of a glyph; [None] is
    [undefined] (no such palette entry). *)
Definition backgroundColorOf (config : ICharAtlasConfig)
           (glyph : IGlyphIdentifier) : option IColor :=
  if bg glyph =? INVERTED_DEFAULT_COLOR host then Some (foreground (colors config))
  else if bg glyph <? 256 then arrayGet (ansi (colors config)) (bg glyph)
  else Some (background (colors config)).

(** The colour chosen for the glyph itself. *)
Definition foregroundColorOf (config : ICharAtlasConfig)
           (glyph : IGlyphIdentifier) : option IColor :=
  if fg glyph =? INVERTED_DEFAULT_COLOR host then Some (background (colors config))
  else if fg glyph <? 256 then arrayGet (ansi (colors config)) (fg glyph)
  else Some (foreground (colors config)).

(** The font assigned first:
    [`${fontSize * devicePixelRatio}px ${fontFamily}`]. *)
Definition fontOf (config : ICharAtlasConfig) : jsstring :=
  numberToString host (numberMul host (fontSize config) (devicePixelRatio config))
    ++ lit "px " ++ fontFamily config.

(** [_drawToCache]. *)
Definition _drawToCache (this : DynamicCharAtlas) (glyph : IGlyphIdentifier)
           (index : Z) : completion DynamicCharAtlas :=
  let config := _config this in
  let w := scaledCharWidth config in
  let h := scaledCharHeight config in
  let ops0 := _tmpCtx this ++ [Save] in
  backgroundColor <- member (backgroundColorOf config glyph) ;;
  let ops1 := ops0 ++ [SetFillStyle (css backgroundColor); FillRect 0 0 w h] in
  let ops2 := ops1 ++ [SetFont (fontOf config)] in
  let ops3 := if bold glyph
              then ops2 ++ [SetFont (lit "bold " ++ currentFont ops2)]
              else ops2 in
  let ops4 := ops3 ++ [SetTextBaseline (lit "top")] in
  foregroundColor <- member (foregroundColorOf config glyph) ;;
  let ops5 := ops4 ++ [SetFillStyle (css foregroundColor)] in
  let ops6 := if dim glyph then ops5 ++ [SetGlobalAlpha (DIM_OPACITY host)] else ops5 in
  let ops7 := ops6 ++ [FillText (char glyph) 0 0; Restore] in
  let imageData := getImageData (_tmpCanvas this) ops7 0 0 w h in
  let cleared := clearColor imageData backgroundColor in
  let '(x, y) := _toCoordinates this index in
  Normal (withCanvases this (putImageData (_cacheCanvas this) cleared x y) ops7).

(** [draw]: the atlas and the destination context as the call leaves
    them, and the value returned. *)
Definition draw (this : DynamicCharAtlas) (ctx : Ctx)
           (glyph : IGlyphIdentifier) (x y : Z)
  : completion (DynamicCharAtlas * Ctx * bool) :=
  let glyphKey := getGlyphCacheKey glyph in
  match JsMap.get glyphKey (_cacheMap this) with
  | Some index =>
      let this1 := withCacheMap this (JsMap.delete glyphKey (_cacheMap this)) in
      let this2 := withCacheMap this1 (JsMap.set glyphKey index (_cacheMap this1)) in
      Normal (this2, _drawFromCache this2 ctx index x y, true)
  | None =>
      if _canCache glyph then
        slot <- (if JsMap.size (_cacheMap this) <? _capacity this
                 then Normal (JsMap.size (_cacheMap this), this)
                 else let '(entry, m) := mapShift (_cacheMap this) in
                      e <- member entry ;;
                      Normal (snd e, withCacheMap this m)) ;;
        let '(index, this1) := slot in
        this2 <- _drawToCache this1 glyph index ;;
        let this3 := withCacheMap this2 (JsMap.set glyphKey index (_cacheMap this2)) in
        Normal (this3, _drawFromCache this3 ctx index x y, true)
      else Normal (this, ctx, false)
  end.

(** One call of [draw] with its arguments. *)
Record DrawCall : Type := mkCall {
  callGlyph : IGlyphIdentifier;
  callX : Z;
  callY : Z
}.

(** A run: the calls are made in order on the same atlas and context;
    the run ends at the first call that throws. *)
Fixpoint drawAll (this : DynamicCharAtlas) (ctx : Ctx) (calls : list DrawCall)
  : completion (DynamicCharAtlas * Ctx * list bool) :=
  match calls with
  | [] => Normal (this, ctx, [])
  | c :: rest =>
      r <- draw this ctx (callGlyph c) (callX c) (callY c) ;;
      let '(this1, ctx1, hit) := r in
      r' <- drawAll this1 ctx1 rest ;;
      let '(this2, ctx2, hits) := r' in
      Normal (this2, ctx2, hit :: hits)
  end.

(** The atlases reached without an exception: a new one, and what a
    call of [draw] that completes leaves.  The object a call leaves when
    it throws is not among them; [attainable] below has those too. *)
Inductive reachable (config : ICharAtlasConfig) : DynamicCharAtlas -> Prop :=
  | reach_new : reachable config (newDynamicCharAtlas config)
  | reach_draw this ctx glyph x y this' ctx' hit :
    reachable config this ->
    draw this ctx glyph x y = Normal (this', ctx', hit) ->
    reachable config this'.

(* ------------------------------------------------------------------ *)
(** ** The object a call leaves, also when it throws *)

(** [draw] and [_drawToCache] assign to the fields of [this] as they go
    and catch nothing: when one of them throws, the object keeps what
    had been assigned until then.  The two definitions below follow the
    same statements as [_drawToCache] and [draw] and pair the completion
    with the object as the call leaves it. *)

(** [_drawToCache].  The fill colour is read after [save ()]; when it is
    [undefined], reading its [css] throws and the scratch context has
    received [save ()] alone.  The ink colour is read after the baseline
    is set; when it is [undefined] the scratch context has received the
    calls up to there, and no [restore ()].  The atlas canvas is written
    by the last statement only. *)
Definition _drawToCacheOutcome (this : DynamicCharAtlas)
           (glyph : IGlyphIdentifier) (index : Z)
  : completion unit * DynamicCharAtlas :=
  let config := _config this in
  let w := scaledCharWidth config in
  let h := scaledCharHeight config in
  let ops0 := _tmpCtx this ++ [Save] in
  match backgroundColorOf config glyph with
  | None => (Throw TypeError, withCanvases this (_cacheCanvas this) ops0)
  | Some backgroundColor =>
      let ops1 := ops0 ++ [SetFillStyle (css backgroundColor); FillRect 0 0 w h] in
      let ops2 := ops1 ++ [SetFont (fontOf config)] in
      let ops3 := if bold glyph
                  then ops2 ++ [SetFont (lit "bold " ++ currentFont ops2)]
                  else ops2 in
      let ops4 := ops3 ++ [SetTextBaseline (lit "top")] in
      match foregroundColorOf config glyph with
      | None => (Throw TypeError, withCanvases this (_cacheCanvas this) ops4)
      | Some foregroundColor =>
          let ops5 := ops4 ++ [SetFillStyle (css foregroundColor)] in
          let ops6 := if dim glyph
                      then ops5 ++ [SetGlobalAlpha (DIM_OPACITY host)]
                      else ops5 in
          let ops7 := ops6 ++ [FillText (char glyph) 0 0; Restore] in
          let imageData := getImageData (_tmpCanvas this) ops7 0 0 w h in
          let cleared := clearColor imageData backgroundColor in
          let '(x, y) := _toCoordinates this index in
          (Normal tt,
           withCanvases this (putImageData (_cacheCanvas this) cleared x y) ops7)
      end
  end.

(** The end of the admission in [draw], from the call of [_drawToCache]
    on: the key is bound and the glyph copied only when [_drawToCache]
    returns. *)
Definition admitOutcome (this : DynamicCharAtlas) (ctx : Ctx)
           (glyph : IGlyphIdentifier) (index x y : Z)
  : completion bool * DynamicCharAtlas * Ctx :=
  match _drawToCacheOutcome this glyph index with
  | (Throw e, this2) => (Throw e, this2, ctx)
  | (Normal _, this2) =>
      let glyphKey := getGlyphCacheKey glyph in
      let this3 := withCacheMap this2 (JsMap.set glyphKey index (_cacheMap this2)) in
      (Normal true, this3, _drawFromCache this3 ctx index x y)
  end.

(** [draw].  With a full map the oldest entry is removed by [mapShift]
    before [_drawToCache] is called: when [_drawToCache] throws, the map
    is left without that entry and without the new key. *)
Definition drawOutcome (this : DynamicCharAtlas) (ctx : Ctx)
           (glyph : IGlyphIdentifier) (x y : Z)
  : completion bool * DynamicCharAtlas * Ctx :=
  let glyphKey := getGlyphCacheKey glyph in
  match JsMap.get glyphKey (_cacheMap this) with
  | Some index =>
      let this1 := withCacheMap this (JsMap.delete glyphKey (_cacheMap this)) in
      let this2 := withCacheMap this1 (JsMap.set glyphKey index (_cacheMap this1)) in
      (Normal true, this2, _drawFromCache this2 ctx index x y)
  | None =>
      if _canCache glyph then
        if JsMap.size (_cacheMap this) <? _capacity this
        then admitOutcome this ctx glyph (JsMap.size (_cacheMap this)) x y
        else match mapShift (_cacheMap this) with
             | (None, m) => (Throw TypeError, withCacheMap this m, ctx)
             | (Some e, m) => admitOutcome (withCacheMap this m) ctx glyph (snd e) x y
             end
      else (Normal false, this, ctx)
  end.

(** The calls are made in order on the same atlas and context by a
    caller that catches what a call throws and goes on: the atlas and the
    context at the end, and the completion of each call. *)
Fixpoint drawEach (this : DynamicCharAtlas) (ctx : Ctx) (calls : list DrawCall)
  : DynamicCharAtlas * Ctx * list (completion bool) :=
  match calls with
  | [] => (this, ctx, [])
  | c :: rest =>
      let '(result, this1, ctx1) :=
        drawOutcome this ctx (callGlyph c) (callX c) (callY c) in
      let '(this2, ctx2, results) := drawEach this1 ctx1 rest in
      (this2, ctx2, result :: results)
  end.

(** The states the atlas object can have: the new atlas, and what a call
    of [draw] leaves, whether it completes or throws. *)
Inductive attainable (config : ICharAtlasConfig) : DynamicCharAtlas -> Prop :=
  | attain_new : attainable config (newDynamicCharAtlas config)
  | attain_draw this ctx glyph x y result this' ctx' :
    attainable config this ->
    drawOutcome this ctx glyph x y = (result, this', ctx') ->
    attainable config this'.

(* ------------------------------------------------------------------ *)
(** ** Vocabulary of the properties *)

(** The glyph refers to colours that exist: neither colour is [undefined]. *)
Definition rasterizable (config : ICharAtlasConfig) (glyph : IGlyphIdentifier)
  : Prop :=
  backgroundColorOf config glyph <> None /\ foregroundColorOf config glyph <> None.

(** The rasterization pipeline in the words of the spec (section 4.4),
    as calls on the scratch context, for a fill colour [fill] and an ink
    colour [ink]: the opaque fill of the cell, then the font (bold when
    the glyph is), the baseline at the top edge, the ink colour, the dim
    opacity when the glyph is dim, and the character at the cell origin. *)
Definition rasterCalls (config : ICharAtlasConfig) (glyph : IGlyphIdentifier)
           (fill ink : IColor) : list Op :=
  [Save; SetFillStyle (css fill);
   FillRect 0 0 (scaledCharWidth config) (scaledCharHeight config);
   SetFont (fontOf config)]
  ++ (if bold glyph then [SetFont (lit "bold " ++ fontOf config)] else [])
  ++ [SetTextBaseline (lit "top"); SetFillStyle (css ink)]
  ++ (if dim glyph then [SetGlobalAlpha (DIM_OPACITY host)] else [])
  ++ [FillText (char glyph) 0 0; Restore].

(** The pixel [(px, py)] lies in the cell of slot [index]. *)
Definition inCell (this : DynamicCharAtlas) (index px py : Z) : bool :=
  inRect (fst (_toCoordinates this index)) (snd (_toCoordinates this index))
         (scaledCharWidth (_config this)) (scaledCharHeight (_config this))
         px py.

(** The number of glyphs rasterized so far: the [fillText] calls the
    scratch context has received. *)
Definition rasterizations (this : DynamicCharAtlas) : nat :=
  length (filter (fun op => match op with FillText _ _ _ => true | _ => false end)
                 (_tmpCtx this)).

(** The grid of an atlas: what the constructor establishes between the
    texture, the cell size and the three grid fields. *)
Definition gridOf (this : DynamicCharAtlas) : Prop :=
  0 < scaledCharWidth (_config this) /\
  0 < scaledCharHeight (_config this) /\
  0 <= cvWidth (_cacheCanvas this) /\
  0 <= cvHeight (_cacheCanvas this) /\
  _width this = cvWidth (_cacheCanvas this) / scaledCharWidth (_config this) /\
  _height this = cvHeight (_cacheCanvas this) / scaledCharHeight (_config this) /\
  _capacity this = _width this * _height this.

(** The fields the constructor sets for [config] and [draw] never
    assigns again. *)
Definition builtFor (config : ICharAtlasConfig) (this : DynamicCharAtlas) : Prop :=
  _config this = config /\
  _tmpCanvas this = (scaledCharWidth config, scaledCharHeight config) /\
  _width this = TEXTURE_WIDTH / scaledCharWidth config /\
  _height this = TEXTURE_HEIGHT / scaledCharHeight config /\
  _capacity this = _width this * _height this /\
  cvWidth (_cacheCanvas this) = TEXTURE_WIDTH /\
  cvHeight (_cacheCanvas this) = TEXTURE_HEIGHT.

(** The invariant of the cache map: its keys are distinct, its slots are
    distinct and are the numbers below its size, and its size is at most
    the capacity. *)
Definition lruInvariant (this : DynamicCharAtlas) : Prop :=
  NoDup (JsMap.keys (_cacheMap this)) /\
  NoDup (JsMap.values (_cacheMap this)) /\
  (forall v, In v (JsMap.values (_cacheMap this)) ->
             0 <= v < JsMap.size (_cacheMap this)) /\
  JsMap.size (_cacheMap this) <= _capacity this.


(** The distinct keys of a sequence of accesses, in the order of their
    last access: the least recently accessed first. *)
Definition byLastAccess (ks : list GlyphCacheKey) : list GlyphCacheKey :=
  nodup eq_dec ks.


(** The keys a run accesses in the cache: those of its cacheable glyphs. *)
Definition accessedKeys (calls : list DrawCall) : list GlyphCacheKey :=
  map (fun c => getGlyphCacheKey (callGlyph c))
      (filter (fun c => _canCache (callGlyph c)) calls).


(** The pixels of the cell of slot [index] in the atlas canvas: what
    [_drawFromCache] copies to the destination. *)
Definition cellImage (this : DynamicCharAtlas) (index : Z) : ImageData :=
  readRect (pixelAt (_cacheCanvas this))
           (fst (_toCoordinates this index)) (snd (_toCoordinates this index))
           (scaledCharWidth (_config this)) (scaledCharHeight (_config this)).

(** Calls of [draw] made one after the other, from [this] on, each of
    which completes and none of which evicts the key [k]: [k] is
    resident after each of them.  A run in which a call throws is not of
    this kind. *)
Inductive runsKeeping (k : GlyphCacheKey)
  : DynamicCharAtlas -> DynamicCharAtlas -> Prop :=
| keep_none this : runsKeeping k this this
| keep_draw this this1 ctx glyph x y this2 ctx' hit :
    runsKeeping k this this1 ->
    draw this1 ctx glyph x y = Normal (this2, ctx', hit) ->
    JsMap.get k (_cacheMap this2) <> None ->
    runsKeeping k this this2.

(** The last [n] elements of a list (the whole list when it is shorter). *)
Definition lastN (A : Type) (n : nat) (l : list A) : list A :=
  skipn (length l - n) l.

(** What holds of the cache map in every state of the object, whatever
    its calls threw: the keys are distinct, the size is at most the
    capacity and the slots are cells of the grid. *)
Definition mapInvariant (this : DynamicCharAtlas) : Prop :=
  NoDup (JsMap.keys (_cacheMap this)) /\
  JsMap.size (_cacheMap this) <= _capacity this /\
  (forall v, In v (JsMap.values (_cacheMap this)) -> 0 <= v < _capacity this).

End Atlas.

(* ------------------------------------------------------------------ *)
(** ** A host and configurations for the examples *)

Module Demo.

(** Rational numbers stand for the floating-point numbers ([DIM_OPACITY]
    is one half, the sentinel is -1); the examples convert only whole
    numbers to strings.  The rasterizer paints a gradient that depends
    on the number of calls made. *)
Definition host : Host :=
  @mkHost QArith_base.Q QArith_base.Qmult
         (fun q => ofNumber (Qround.Qfloor q))
         (QArith_base.Qmake 1 2)
         (-1)
         (fun _ _ ops x y =>
            mkPixel (x mod 256) (y mod 256) (Z.of_nat (length ops) mod 256) 255).

Definition palette : list IColor :=
  map (fun i => mkColor (lit "ansi" ++ ofNumber i) (i * 0x01010100 + 0xff))
      (zrange 256).

Definition theme : IColorSet :=
  mkColorSet (mkColor (lit "#ffffff") 0xffffffff)
             (mkColor (lit "#000000") 0x000000ff)
             palette.

Definition configOf (cellWidth cellHeight : Z) : ICharAtlasConfig host :=
  @mkConfig host (QArith_base.Qmake 12 1) (lit "monospace") (QArith_base.Qmake 2 1)
           cellWidth cellHeight theme.

(** Four cells, one cell, no cell at all, and an ordinary cell size. *)
Definition fourCells : ICharAtlasConfig host := configOf 512 512.
Definition oneCell : ICharAtlasConfig host := configOf 1024 1024.
Definition noCell : ICharAtlasConfig host := configOf 1025 16.
Definition ordinary : ICharAtlasConfig host := configOf 8 16.

Definition glyphOf (c : string) : IGlyphIdentifier :=
  mkGlyph (lit c) 0 256 false false.

Definition glyphA : IGlyphIdentifier := glyphOf "a".
Definition glyphB : IGlyphIdentifier := glyphOf "b".
Definition glyphC : IGlyphIdentifier := glyphOf "c".
Definition glyphD : IGlyphIdentifier := glyphOf "d".
Definition glyphE : IGlyphIdentifier := glyphOf "e".

(** A glyph outside Latin-1 (U+4E2D). *)
Definition glyphWide : IGlyphIdentifier := mkGlyph [0x4E2D] 0 256 false false.

Definition callOf (glyph : IGlyphIdentifier) : DrawCall := mkCall glyph 0 0.

(** A run that accesses four distinct keys, one of them twice, and is
    refused once. *)
Definition calls : list DrawCall :=
  [callOf glyphA; callOf glyphB; callOf glyphA; callOf glyphWide;
   callOf glyphC; callOf glyphD].

(** The atlas a run from a new atlas leaves (the new atlas itself if the
    run throws). *)
Definition atlasAfter (config : ICharAtlasConfig host) (run : list DrawCall)
  : DynamicCharAtlas host :=
  match drawAll (newDynamicCharAtlas config) [] run with
  | Normal (this, _, _) => this
  | Throw _ => newDynamicCharAtlas config
  end.

(** The values its calls return ([None] if the run throws). *)
Definition hitsAfter (config : ICharAtlasConfig host) (run : list DrawCall)
  : option (list bool) :=
  match drawAll (newDynamicCharAtlas config) [] run with
  | Normal (_, _, hits) => Some hits
  | Throw _ => None
  end.

(** The destination context it leaves. *)
Definition ctxAfter (config : ICharAtlasConfig host) (run : list DrawCall) : Ctx :=
  match drawAll (newDynamicCharAtlas config) [] run with
  | Normal (_, ctx, _) => ctx
  | Throw _ => []
  end.

(** The full atlas of four cells that [calls] leaves. *)
Definition full : DynamicCharAtlas host := atlasAfter fourCells calls.

Definition keyA : GlyphCacheKey := getGlyphCacheKey glyphA.
Definition keyB : GlyphCacheKey := getGlyphCacheKey glyphB.
Definition keyC : GlyphCacheKey := getGlyphCacheKey glyphC.
Definition keyD : GlyphCacheKey := getGlyphCacheKey glyphD.
Definition keyE : GlyphCacheKey := getGlyphCacheKey glyphE.

(** A Latin-1 glyph whose background id names no colour: -2 is below 256,
    is not the sentinel, and the palette has no entry -2. *)
Definition glyphNoColour : IGlyphIdentifier := mkGlyph (lit "x") (-2) 256 false false.

(** [calls], then a call that throws, then the admission of a new glyph. *)
Definition callsThrowing : list DrawCall :=
  calls ++ [callOf glyphNoColour; callOf glyphE].

(** The atlas that a run from a new atlas leaves when the caller catches
    what its calls throw. *)
Definition objectAfter (config : ICharAtlasConfig host) (run : list DrawCall)
  : DynamicCharAtlas host :=
  fst (fst (drawEach (newDynamicCharAtlas config) [] run)).

(** The completions of its calls. *)
Definition resultsAfter (config : ICharAtlasConfig host) (run : list DrawCall)
  : list (completion bool) :=
  snd (drawEach (newDynamicCharAtlas config) [] run).

(** The top left pixel of the image that the last call of the run copied
    to the destination ([None] if the destination received nothing). *)
Definition lastBlit (config : ICharAtlasConfig host) (run : list DrawCall)
  : option Pixel :=
  match rev (snd (fst (drawEach (newDynamicCharAtlas config) [] run))) with
  | DrawImage image _ _ _ _ :: _ => Some (imagePixel image 0 0)
  | [] => None
  end.

End Demo.

(* ================================================================== *)
(** * Facts *)

Unset Implicit Arguments.

(* ------------------------------------------------------------------ *)
(** ** Strings and keys *)

Lemma jsstring_eqb_refl a : eqb a a = true.
Proof. unfold eqb. destruct (eq_dec a a); congruence. Qed.

Lemma jsstring_eqb_eq a b : eqb a b = true <-> a = b.
Proof. unfold eqb. destruct (eq_dec a b); split; congruence. Qed.

Lemma jsstring_eqb_neq a b : eqb a b = false <-> a <> b.
Proof. unfold eqb. destruct (eq_dec a b); split; congruence. Qed.

(** Every code unit of an unsigned numeral is a decimal digit. *)
Lemma uintCodes_digits d c : In c (uintCodes d) -> 48 <= c <= 57.
Proof.
  induction d; simpl; intros H; try contradiction;
    (destruct H as [H | H]; [unfold digitCode in H; lia | auto]).
Qed.

Lemma uintCodes_inj d d' : uintCodes d = uintCodes d' -> d = d'.
Proof.
  revert d'; induction d; destruct d'; simpl; intros H;
    try reflexivity; try discriminate H;
    injection H as H; f_equal; auto.
Qed.

Lemma intCodes_inj d d' : intCodes d = intCodes d' -> d = d'.
Proof.
  destruct d as [u | u], d' as [u' | u']; simpl; intros H.
  - f_equal; now apply uintCodes_inj.
  - exfalso. assert (Hc : In minusCode (uintCodes u)) by (rewrite H; now left).
    apply uintCodes_digits in Hc. unfold minusCode in Hc. lia.
  - exfalso. assert (Hc : In minusCode (uintCodes u')) by (rewrite <- H; now left).
    apply uintCodes_digits in Hc. unfold minusCode in Hc. lia.
  - injection H as H. f_equal; now apply uintCodes_inj.
Qed.

Lemma ofNumber_inj n n' : ofNumber n = ofNumber n' -> n = n'.
Proof.
  unfold ofNumber. intros H. apply DecimalZ.to_int_inj. now apply intCodes_inj.
Qed.

(** The separator does not occur in the text of a number. *)
Lemma ofNumber_no_underscore n : ~ In underscoreCode (ofNumber n).
Proof.
  unfold ofNumber, underscoreCode.
  destruct (Z.to_int n) as [u | u]; simpl; intros H.
  - apply uintCodes_digits in H. lia.
  - destruct H as [H | H]; [unfold minusCode in H; lia |].
    apply uintCodes_digits in H. lia.
Qed.

Lemma ofFlag_inj b b' : ofFlag b = ofFlag b' -> b = b'.
Proof. destruct b, b'; simpl; intros H; try reflexivity; discriminate H. Qed.

(** Two texts cut at the first separator agree part by part. *)
Lemma split_at_separator (a a' r r' : jsstring) (s : codeUnit) :
  ~ In s a -> ~ In s a' -> a ++ s :: r = a' ++ s :: r' -> a = a' /\ r = r'.
Proof.
  intros Ha Ha' H.
  destruct (app_inj_pivot _ _ _ _ _ H) as [[[H1 _] | [_ H1]] | H1]; tauto.
Qed.

Lemma getGlyphCacheKey_header g :
  getGlyphCacheKey g = keyHeader g ++ char g.
Proof.
  unfold getGlyphCacheKey, keyHeader. now rewrite <- !app_assoc.
Qed.

(** The key determines the five fields. *)
Lemma getGlyphCacheKey_fields g1 g2 :
  getGlyphCacheKey g1 = getGlyphCacheKey g2 ->
  bg g1 = bg g2 /\ fg g1 = fg g2 /\ bold g1 = bold g2 /\ dim g1 = dim g2 /\
  char g1 = char g2.
Proof.
  unfold getGlyphCacheKey. simpl. intros H.
  apply split_at_separator in H; try apply ofNumber_no_underscore.
  destruct H as [Hbg H].
  apply split_at_separator in H; try apply ofNumber_no_underscore.
  destruct H as [Hfg H].
  destruct (bold g1), (bold g2), (dim g1), (dim g2); simpl in H;
    try discriminate H; injection H as H;
    repeat split; auto using ofNumber_inj.
Qed.

Lemma getGlyphCacheKey_inj g1 g2 :
  getGlyphCacheKey g1 = getGlyphCacheKey g2 -> g1 = g2.
Proof.
  intros H. apply getGlyphCacheKey_fields in H.
  destruct g1, g2; simpl in *.
  destruct H as (-> & -> & -> & -> & ->). reflexivity.
Qed.

(** Glyphs with the same key are cacheable together. *)
Lemma canCache_key g1 g2 :
  getGlyphCacheKey g1 = getGlyphCacheKey g2 -> _canCache g1 = _canCache g2.
Proof. intros H. now rewrite (getGlyphCacheKey_inj _ _ H). Qed.

(** C6.  [getGlyphCacheKey] is a function of the glyph alone, defined on
    every glyph, and injective: two glyphs get the same key exactly when
    they agree on [bg], [fg], [bold], [dim] and [char].  The key is the
    header, written from the colour ids and the two flags only, followed
    by the character payload, and equal keys split into equal headers
    and equal payloads: the flags and colour ids never share positions
    with the payload. *)
Theorem getGlyphCacheKey_injective :
  (forall g1 g2,
      getGlyphCacheKey g1 = getGlyphCacheKey g2 <->
      (bg g1 = bg g2 /\ fg g1 = fg g2 /\ bold g1 = bold g2 /\
       dim g1 = dim g2 /\ char g1 = char g2)) /\
  (forall g, getGlyphCacheKey g = keyHeader g ++ char g) /\
  (forall g1 g2,
      bg g1 = bg g2 -> fg g1 = fg g2 -> bold g1 = bold g2 -> dim g1 = dim g2 ->
      keyHeader g1 = keyHeader g2) /\
  (forall g1 g2,
      getGlyphCacheKey g1 = getGlyphCacheKey g2 ->
      keyHeader g1 = keyHeader g2 /\ char g1 = char g2).
Proof.
  split; [| split; [| split]].
  - intros g1 g2; split.
    + apply getGlyphCacheKey_fields.
    + intros (Hbg & Hfg & Hbold & Hdim & Hchar).
      unfold getGlyphCacheKey. now rewrite Hbg, Hfg, Hbold, Hdim, Hchar.
  - apply getGlyphCacheKey_header.
  - intros g1 g2 Hbg Hfg Hbold Hdim. unfold keyHeader.
    now rewrite Hbg, Hfg, Hbold, Hdim.
  - intros g1 g2 H. apply getGlyphCacheKey_inj in H. now subst.
Qed.

(* ------------------------------------------------------------------ *)
(** ** Maps *)

Section MapFacts.
Variable V : Type.
Implicit Types (m : JsMap.t V) (k : GlyphCacheKey) (v : V).

Lemma hasKey_true k (e : GlyphCacheKey * V) : JsMap.hasKey k e = true <-> fst e = k.
Proof. unfold JsMap.hasKey. apply jsstring_eqb_eq. Qed.

Lemma hasKey_false k (e : GlyphCacheKey * V) : JsMap.hasKey k e = false <-> fst e <> k.
Proof. unfold JsMap.hasKey. apply jsstring_eqb_neq. Qed.

Lemma get_None k m : JsMap.get k m = None <-> ~ In k (JsMap.keys m).
Proof.
  unfold JsMap.get, JsMap.keys. induction m as [| e r IH]; simpl.
  - tauto.
  - destruct (JsMap.hasKey k e) eqn:He.
    + apply hasKey_true in He. split; [discriminate | tauto].
    + apply hasKey_false in He. rewrite IH. tauto.
Qed.

Lemma get_Some_In k v m : JsMap.get k m = Some v -> In (k, v) m.
Proof.
  unfold JsMap.get. induction m as [| e r IH]; simpl; [discriminate |].
  destruct (JsMap.hasKey k e) eqn:He.
  - apply hasKey_true in He. intros [= <-]. left. destruct e; simpl in *; congruence.
  - auto.
Qed.

Lemma In_get_Some k v m :
  NoDup (JsMap.keys m) -> In (k, v) m -> JsMap.get k m = Some v.
Proof.
  unfold JsMap.get, JsMap.keys.
  induction m as [| e r IH]; simpl; intros Hnd Hin; [contradiction |].
  inversion Hnd as [| ? ? Hnot Hnd']; subst.
  destruct Hin as [-> | Hin].
  - simpl. unfold JsMap.hasKey. simpl. now rewrite jsstring_eqb_refl.
  - destruct (JsMap.hasKey k e) eqn:He; [| auto].
    apply hasKey_true in He. exfalso. apply Hnot. rewrite He.
    change k with (fst (k, v)). now apply in_map.
Qed.

Lemma set_absent k v m : JsMap.get k m = None -> JsMap.set k v m = m ++ [(k, v)].
Proof.
  unfold JsMap.get. induction m as [| e r IH]; simpl; [reflexivity |].
  destruct (JsMap.hasKey k e); [discriminate |].
  intros H. now rewrite IH.
Qed.

Lemma delete_absent k m : JsMap.get k m = None -> JsMap.delete k m = m.
Proof.
  unfold JsMap.get, JsMap.delete. induction m as [| e r IH]; simpl; [reflexivity |].
  destruct (JsMap.hasKey k e); [discriminate |].
  intros H. simpl. now rewrite IH.
Qed.

Lemma get_delete_same k m : JsMap.get k (JsMap.delete k m) = None.
Proof.
  apply get_None. unfold JsMap.keys, JsMap.delete. intros Hin.
  apply in_map_iff in Hin. destruct Hin as (e & He & Hin).
  apply filter_In in Hin. destruct Hin as [_ Hf].
  apply negb_true_iff, hasKey_false in Hf. contradiction.
Qed.

Lemma get_delete_other k k' m :
  k' <> k -> JsMap.get k' (JsMap.delete k m) = JsMap.get k' m.
Proof.
  intros Hne. unfold JsMap.get, JsMap.delete.
  induction m as [| e r IH]; simpl; [reflexivity |].
  destruct (JsMap.hasKey k e) eqn:He; simpl.
  - apply hasKey_true in He.
    assert (Hk : JsMap.hasKey k' e = false) by (apply hasKey_false; congruence).
    now rewrite Hk.
  - destruct (JsMap.hasKey k' e); [reflexivity | exact IH].
Qed.

Lemma get_app k m m' :
  JsMap.get k (m ++ m') =
  match JsMap.get k m with Some v => Some v | None => JsMap.get k m' end.
Proof.
  unfold JsMap.get. induction m as [| e r IH]; simpl; [reflexivity |].
  destruct (JsMap.hasKey k e); [reflexivity | exact IH].
Qed.

Lemma get_singleton k k' v :
  JsMap.get k' [(k, v)] = if eqb k k' then Some v else None.
Proof. unfold JsMap.get. simpl. unfold JsMap.hasKey. simpl. now destruct (eqb k k'). Qed.

(** With distinct keys, deleting the key of the oldest entry leaves the rest. *)
Lemma delete_head (e : GlyphCacheKey * V) m :
  NoDup (JsMap.keys (e :: m)) -> JsMap.delete (fst e) (e :: m) = m.
Proof.
  intros Hnd. inversion Hnd as [| ? ? Hnot _]; subst.
  unfold JsMap.delete. simpl. unfold JsMap.hasKey at 1. rewrite jsstring_eqb_refl. simpl.
  apply delete_absent. now apply get_None.
Qed.

(** Deleting a present key and appending it again permutes the entries. *)
Lemma delete_reinsert_Permutation k v m :
  NoDup (JsMap.keys m) -> JsMap.get k m = Some v ->
  Permutation (JsMap.delete k m ++ [(k, v)]) m.
Proof.
  unfold JsMap.keys.
  induction m as [| e r IH]; simpl; intros Hnd Hget; [discriminate |].
  inversion Hnd as [| ? ? Hnot Hnd']; subst.
  unfold JsMap.get in Hget. simpl in Hget. unfold JsMap.delete. simpl.
  destruct (JsMap.hasKey k e) eqn:He; simpl.
  - apply hasKey_true in He. injection Hget as <-.
    fold (JsMap.delete k r). rewrite delete_absent.
    + replace (k, snd e) with e by (destruct e; simpl in *; congruence).
      apply Permutation_sym, Permutation_cons_append.
    + apply get_None. now rewrite <- He.
  - apply perm_skip. apply IH; assumption.
Qed.

Lemma size_app m m' : JsMap.size (m ++ m') = JsMap.size m + JsMap.size m'.
Proof. unfold JsMap.size. rewrite length_app. lia. Qed.

Lemma size_nonneg m : 0 <= JsMap.size m.
Proof. unfold JsMap.size. lia. Qed.

Lemma keys_app m m' : JsMap.keys (m ++ m') = JsMap.keys m ++ JsMap.keys m'.
Proof. apply map_app. Qed.

Lemma values_app m m' : JsMap.values (m ++ m') = JsMap.values m ++ JsMap.values m'.
Proof. apply map_app. Qed.

End MapFacts.

(* ------------------------------------------------------------------ *)
(** ** The ways through [draw] *)

Section AtlasFacts.
Variable host : Host.
Implicit Types (this : DynamicCharAtlas host) (glyph : IGlyphIdentifier) (ctx : Ctx).

Lemma currentFont_set (ops : list (Op host)) f : currentFont (ops ++ [SetFont f]) = f.
Proof. unfold currentFont. now rewrite rev_app_distr. Qed.

(** [_drawToCache] on a glyph whose colours exist. *)
Lemma drawToCache_calls this glyph index fill ink :
  backgroundColorOf (_config this) glyph = Some fill ->
  foregroundColorOf (_config this) glyph = Some ink ->
  _drawToCache this glyph index =
  Normal (withCanvases this
            (putImageData (_cacheCanvas this)
               (clearColor
                  (getImageData (_tmpCanvas this)
                     (_tmpCtx this ++ rasterCalls (_config this) glyph fill ink) 0 0
                     (scaledCharWidth (_config this))
                     (scaledCharHeight (_config this)))
                  fill)
               (fst (_toCoordinates this index))
               (snd (_toCoordinates this index)))
            (_tmpCtx this ++ rasterCalls (_config this) glyph fill ink)).
Proof.
  intros Hbg Hfg. unfold _drawToCache. rewrite Hbg, Hfg. simpl.
  destruct (_toCoordinates this index) as [x y]. simpl.
  unfold rasterCalls.
  destruct (bold glyph), (dim glyph); rewrite ?currentFont_set;
    repeat (rewrite <- app_assoc; simpl); reflexivity.
Qed.

Lemma draw_hit this ctx glyph x y index :
  JsMap.get (getGlyphCacheKey glyph) (_cacheMap this) = Some index ->
  let this' := withCacheMap this
                 (JsMap.delete (getGlyphCacheKey glyph) (_cacheMap this)
                    ++ [(getGlyphCacheKey glyph, index)]) in
  draw this ctx glyph x y = Normal (this', _drawFromCache this' ctx index x y, true).
Proof.
  intros Hget. unfold draw. rewrite Hget. simpl.
  rewrite set_absent by apply get_delete_same. reflexivity.
Qed.

Lemma draw_reject this ctx glyph x y :
  JsMap.get (getGlyphCacheKey glyph) (_cacheMap this) = None ->
  _canCache glyph = false ->
  draw this ctx glyph x y = Normal (this, ctx, false).
Proof. intros Hget Hcan. unfold draw. now rewrite Hget, Hcan. Qed.

(** A miss on a cacheable glyph while the atlas has a free slot. *)
Lemma draw_admit_free this ctx glyph x y fill ink :
  JsMap.get (getGlyphCacheKey glyph) (_cacheMap this) = None ->
  _canCache glyph = true ->
  JsMap.size (_cacheMap this) < _capacity this ->
  backgroundColorOf (_config this) glyph = Some fill ->
  foregroundColorOf (_config this) glyph = Some ink ->
  exists this2,
    _drawToCache this glyph (JsMap.size (_cacheMap this)) = Normal this2 /\
    let this3 := withCacheMap this2
                   (_cacheMap this
                      ++ [(getGlyphCacheKey glyph, JsMap.size (_cacheMap this))]) in
    draw this ctx glyph x y =
    Normal (this3, _drawFromCache this3 ctx (JsMap.size (_cacheMap this)) x y, true).
Proof.
  intros Hget Hcan Hfree Hbg Hfg.
  eexists. split; [apply (drawToCache_calls this glyph _ _ _ Hbg Hfg) |].
  unfold draw. rewrite Hget, Hcan.
  apply Z.ltb_lt in Hfree. rewrite Hfree. simpl.
  rewrite (drawToCache_calls this glyph _ _ _ Hbg Hfg). simpl.
  rewrite set_absent by assumption. reflexivity.
Qed.

(** A miss on a cacheable glyph while the atlas is full: the oldest entry
    [e] leaves and its slot is taken. *)
Lemma draw_admit_evict this ctx glyph x y fill ink e rest :
  JsMap.get (getGlyphCacheKey glyph) (_cacheMap this) = None ->
  _canCache glyph = true ->
  ~ JsMap.size (_cacheMap this) < _capacity this ->
  _cacheMap this = e :: rest ->
  NoDup (JsMap.keys (_cacheMap this)) ->
  backgroundColorOf (_config this) glyph = Some fill ->
  foregroundColorOf (_config this) glyph = Some ink ->
  exists this2,
    _drawToCache (withCacheMap this rest) glyph (snd e) = Normal this2 /\
    let this3 := withCacheMap this2 (rest ++ [(getGlyphCacheKey glyph, snd e)]) in
    draw this ctx glyph x y =
    Normal (this3, _drawFromCache this3 ctx (snd e) x y, true).
Proof.
  intros Hget Hcan Hfull Hm Hnd Hbg Hfg.
  eexists. split; [apply (drawToCache_calls (withCacheMap this rest) glyph _ _ _ Hbg Hfg) |].
  unfold draw. rewrite Hget, Hcan.
  apply Z.ltb_nlt in Hfull. rewrite Hfull.
  unfold mapShift. rewrite Hm in *. simpl JsMap.firstEntry. cbv iota.
  rewrite delete_head by assumption. simpl.
  rewrite (drawToCache_calls (withCacheMap this rest) glyph _ _ _ Hbg Hfg). simpl.
  rewrite set_absent; [reflexivity |].
  apply get_None. apply get_None in Hget. simpl in Hget. tauto.
Qed.

(** A miss on a cacheable glyph with no slot to give and no entry to
    evict: the result of [mapShift] is [undefined]. *)
Lemma draw_throw_empty this ctx glyph x y :
  _canCache glyph = true ->
  ~ JsMap.size (_cacheMap this) < _capacity this ->
  _cacheMap this = [] ->
  draw this ctx glyph x y = Throw TypeError.
Proof.
  intros Hcan Hfull Hm. unfold draw. rewrite Hm in *. simpl.
  rewrite Hcan. apply Z.ltb_nlt in Hfull. now rewrite Hfull.
Qed.

(** Every completed call of [draw] went one of three ways: a hit, a
    refusal, or an admission into the slot [index], which is either the
    next unused one or the slot of the evicted oldest entry. *)
Lemma draw_Normal_inv this ctx glyph x y this' ctx' hit :
  NoDup (JsMap.keys (_cacheMap this)) ->
  draw this ctx glyph x y = Normal (this', ctx', hit) ->
  let k := getGlyphCacheKey glyph in
  let m := _cacheMap this in
  (exists index,
      JsMap.get k m = Some index /\ hit = true /\
      this' = withCacheMap this (JsMap.delete k m ++ [(k, index)]) /\
      ctx' = _drawFromCache this' ctx index x y) \/
  (JsMap.get k m = None /\ _canCache glyph = false /\ hit = false /\
   this' = this /\ ctx' = ctx) \/
  (exists index base img ops,
      JsMap.get k m = None /\ _canCache glyph = true /\ hit = true /\
      (JsMap.size m < _capacity this /\ index = JsMap.size m /\ base = m \/
       ~ JsMap.size m < _capacity this /\ exists e, m = e :: base /\ index = snd e) /\
      imgWidth img = scaledCharWidth (_config this) /\
      imgHeight img = scaledCharHeight (_config this) /\
      rasterizable (_config this) glyph /\
      this' = mkAtlas (_config this) (base ++ [(k, index)])
                (putImageData (_cacheCanvas this) img
                   (fst (_toCoordinates this index))
                   (snd (_toCoordinates this index)))
                (_tmpCanvas this) (_tmpCtx this ++ ops)
                (_capacity this) (_width this) (_height this) /\
      ctx' = _drawFromCache this' ctx index x y).
Proof.
  intros Hnd Hdraw k m.
  destruct (JsMap.get k m) as [index |] eqn:Hget.
  - left. exists index. subst k m.
    rewrite (draw_hit this ctx glyph x y _ Hget) in Hdraw.
    injection Hdraw as <- <- <-. auto.
  - destruct (_canCache glyph) eqn:Hcan.
    + right; right.
      destruct (backgroundColorOf (_config this) glyph) as [fill |] eqn:Hbg.
      2: { exfalso. unfold draw in Hdraw. fold k m in Hdraw. rewrite Hget, Hcan in Hdraw.
           destruct (JsMap.size m <? _capacity this); simpl in Hdraw.
           - unfold _drawToCache in Hdraw. simpl in Hdraw. rewrite Hbg in Hdraw. discriminate.
           - unfold mapShift in Hdraw. destruct (JsMap.firstEntry m); simpl in Hdraw; [| discriminate].
             unfold _drawToCache in Hdraw. simpl in Hdraw. rewrite Hbg in Hdraw. discriminate. }
      destruct (foregroundColorOf (_config this) glyph) as [ink |] eqn:Hfg.
      2: { exfalso. unfold draw in Hdraw. fold k m in Hdraw. rewrite Hget, Hcan in Hdraw.
           destruct (JsMap.size m <? _capacity this); simpl in Hdraw.
           - unfold _drawToCache in Hdraw. simpl in Hdraw. rewrite Hbg, Hfg in Hdraw. discriminate.
           - unfold mapShift in Hdraw. destruct (JsMap.firstEntry m); simpl in Hdraw; [| discriminate].
             unfold _drawToCache in Hdraw. simpl in Hdraw. rewrite Hbg, Hfg in Hdraw. discriminate. }
      assert (Hr : rasterizable (_config this) glyph)
        by (unfold rasterizable; rewrite Hbg, Hfg; split; discriminate).
      destruct (Z_lt_dec (JsMap.size m) (_capacity this)) as [Hfree | Hfull].
      * destruct (draw_admit_free this ctx glyph x y _ _ Hget Hcan Hfree Hbg Hfg)
          as (this2 & H2 & Heq).
        rewrite (drawToCache_calls this glyph _ _ _ Hbg Hfg) in H2. injection H2 as <-.
        cbv zeta in Heq. rewrite Heq in Hdraw. injection Hdraw as <- <- <-.
        exists (JsMap.size m), m. eexists. eexists.
        repeat split; try reflexivity; try assumption; try apply Hr.
        left. auto.
      * assert (Hcase : m = [] \/ exists e rest, m = e :: rest)
          by (destruct m as [| e rest]; eauto).
        destruct Hcase as [Hm | (e & rest & Hm)].
        { rewrite (draw_throw_empty this ctx glyph x y Hcan Hfull Hm) in Hdraw.
          discriminate. }
        destruct (draw_admit_evict this ctx glyph x y _ _ _ _ Hget Hcan Hfull Hm Hnd Hbg Hfg)
          as (this2 & H2 & Heq).
        rewrite (drawToCache_calls (withCacheMap this rest) glyph _ _ _ Hbg Hfg) in H2.
        injection H2 as <-.
        cbv zeta in Heq. rewrite Heq in Hdraw. injection Hdraw as <- <- <-.
        exists (snd e), rest. eexists. eexists.
        repeat split; try reflexivity; try assumption; try apply Hr.
        right. split; [assumption |]. exists e. auto.
    + right; left. subst k m.
      rewrite (draw_reject this ctx glyph x y Hget Hcan) in Hdraw.
      injection Hdraw as <- <- <-. auto.
Qed.

(* ------------------------------------------------------------------ *)
(** ** The invariant of the cache map *)

Lemma capacity_nonneg (config : ICharAtlasConfig host) :
  0 < scaledCharWidth config -> 0 < scaledCharHeight config ->
  0 <= _capacity (newDynamicCharAtlas config).
Proof.
  intros Hw Hh. simpl. apply Z.mul_nonneg_nonneg; apply Z.div_pos;
    unfold TEXTURE_WIDTH, TEXTURE_HEIGHT; lia.
Qed.

Lemma builtFor_new (config : ICharAtlasConfig host) :
  builtFor config (newDynamicCharAtlas config).
Proof. unfold builtFor. simpl. repeat split. Qed.

Lemma builtFor_draw config this ctx glyph x y this' ctx' hit :
  NoDup (JsMap.keys (_cacheMap this)) ->
  builtFor config this ->
  draw this ctx glyph x y = Normal (this', ctx', hit) ->
  builtFor config this'.
Proof.
  intros Hnd Hb Hdraw.
  destruct (draw_Normal_inv _ _ _ _ _ _ _ _ Hnd Hdraw)
    as [(index & _ & _ & -> & _) | [(_ & _ & _ & -> & _) |
        (index & base & img & ops & _ & _ & _ & _ & _ & _ & _ & -> & _)]];
    exact Hb.
Qed.

Lemma lruInvariant_new (config : ICharAtlasConfig host) :
  0 < scaledCharWidth config -> 0 < scaledCharHeight config ->
  lruInvariant (newDynamicCharAtlas config).
Proof.
  intros Hw Hh. unfold lruInvariant.
  repeat split; try constructor; try contradiction.
  change (JsMap.size (_cacheMap (newDynamicCharAtlas config))) with 0.
  now apply capacity_nonneg.
Qed.

Lemma lruInvariant_draw this ctx glyph x y this' ctx' hit :
  lruInvariant this ->
  draw this ctx glyph x y = Normal (this', ctx', hit) ->
  lruInvariant this'.
Proof.
  intros (Hk & Hv & Hb & Hs) Hdraw.
  destruct (draw_Normal_inv _ _ _ _ _ _ _ _ Hk Hdraw)
    as [(index & Hget & _ & -> & _) | [(_ & _ & _ & -> & _) |
        (index & base & img & ops & Hget & _ & _ & Hslot & _ & _ & _ & -> & _)]].
  - (* hit: the entries are permuted *)
    pose proof (delete_reinsert_Permutation _ _ _ _ Hk Hget) as Hp.
    unfold lruInvariant. simpl.
    set (m' := JsMap.delete (getGlyphCacheKey glyph) (_cacheMap this)
               ++ [(getGlyphCacheKey glyph, index)]) in *.
    assert (Hlen : JsMap.size m' = JsMap.size (_cacheMap this))
      by (unfold JsMap.size; now rewrite (Permutation_length Hp)).
    assert (Hin : forall v, In v (JsMap.values m') -> In v (JsMap.values (_cacheMap this))).
    { intros v. apply Permutation_in. apply Permutation_map, Hp. }
    split; [| split; [| split]].
    + apply (Permutation_NoDup (l := JsMap.keys (_cacheMap this))); [| exact Hk].
      apply Permutation_sym, Permutation_map, Hp.
    + apply (Permutation_NoDup (l := JsMap.values (_cacheMap this))); [| exact Hv].
      apply Permutation_sym, Permutation_map, Hp.
    + intros v Hv'. rewrite Hlen. auto.
    + now rewrite Hlen.
  - exact (conj Hk (conj Hv (conj Hb Hs))).
  - unfold lruInvariant. simpl. apply get_None in Hget.
    destruct Hslot as [(Hfree & -> & ->) | (Hfull & e & Hm & ->)].
    + (* a free slot: the next number *)
      rewrite keys_app, values_app, size_app. simpl.
      change (JsMap.size [(getGlyphCacheKey glyph, JsMap.size (_cacheMap this))]) with 1.
      repeat split.
      * apply NoDup_app; [assumption | repeat constructor; auto | ].
        intros a Ha [<- | []]. contradiction.
      * apply NoDup_app; [assumption | repeat constructor; auto | ].
        intros a Ha [<- | []]. apply Hb in Ha. lia.
      * apply in_app_or in H. destruct H as [H | [<- | []]].
        -- apply Hb in H. lia.
        -- apply size_nonneg.
      * apply in_app_or in H. destruct H as [H | [<- | []]].
        -- apply Hb in H. lia.
        -- lia.
      * lia.
    + (* eviction: the oldest entry leaves, its slot stays in use *)
      rewrite Hm in *. rewrite keys_app, values_app, size_app. simpl in *.
      change (JsMap.size [(getGlyphCacheKey glyph, snd e)]) with 1.
      assert (Hsz : JsMap.size (e :: base) = JsMap.size base + 1)
        by (unfold JsMap.size; simpl length; lia).
      inversion Hk as [| ? ? Hk1 Hk2]; subst.
      inversion Hv as [| ? ? Hv1 Hv2]; subst.
      repeat split.
      * apply NoDup_app; [assumption | repeat constructor; auto | ].
        intros a Ha [<- | []]. tauto.
      * apply NoDup_app; [assumption | repeat constructor; auto | ].
        intros a Ha [<- | []]. contradiction.
      * apply in_app_or in H. destruct H as [H | [<- | []]].
        -- apply (Hb v). now right.
        -- apply (Hb (snd e)). now left.
      * rewrite <- Hsz. apply in_app_or in H. destruct H as [H | [<- | []]].
        -- apply (Hb v). now right.
        -- apply (Hb (snd e)). now left.
      * lia.
Qed.

Lemma reachable_invariant config this :
  0 < scaledCharWidth config -> 0 < scaledCharHeight config ->
  reachable config this -> builtFor config this /\ lruInvariant this.
Proof.
  intros Hw Hh Hr. induction Hr as [| this ctx glyph x y this' ctx' hit Hr [IHb IHi] Hdraw].
  - split; [apply builtFor_new | now apply lruInvariant_new].
  - split.
    + eapply builtFor_draw; eauto. apply IHi.
    + eapply lruInvariant_draw; eauto.
Qed.

(** With distinct slots, a slot has one owner. *)
Lemma slot_owner (m : JsMap.t Z) k1 k2 v :
  NoDup (JsMap.values m) -> In (k1, v) m -> In (k2, v) m -> k1 = k2.
Proof.
  unfold JsMap.values. induction m as [| e r IH]; simpl; intros Hnd H1 H2; [contradiction |].
  inversion Hnd as [| ? ? Hnot Hnd']; subst.
  assert (Hin : forall k, In (k, v) r -> In v (map snd r))
    by (intros k Hk; change v with (snd (k, v)); now apply in_map).
  destruct H1 as [-> | H1], H2 as [H2 | H2].
  - congruence.
  - exfalso. apply Hnot. simpl. eauto.
  - subst e. exfalso. apply Hnot. simpl. eauto.
  - eauto.
Qed.

(** A completed call of [draw] leaves every resident key its slot, or
    removes the key. *)
Lemma draw_keeps_slot this ctx glyph x y this' ctx' hit owner v :
  NoDup (JsMap.keys (_cacheMap this)) ->
  draw this ctx glyph x y = Normal (this', ctx', hit) ->
  JsMap.get owner (_cacheMap this) = Some v ->
  JsMap.get owner (_cacheMap this') = Some v \/
  JsMap.get owner (_cacheMap this') = None.
Proof.
  intros Hk Hdraw Hown.
  destruct (draw_Normal_inv _ _ _ _ _ _ _ _ Hk Hdraw)
    as [(index & Hget & _ & -> & _) | [(_ & _ & _ & -> & _) |
        (index & base & img & ops & Hget & _ & _ & Hslot & _ & _ & _ & -> & _)]];
    simpl.
  - left. rewrite get_app.
    destruct (eq_dec owner (getGlyphCacheKey glyph)) as [-> | Hne].
    + rewrite get_delete_same, get_singleton, jsstring_eqb_refl. congruence.
    + rewrite get_delete_other by assumption. now rewrite Hown.
  - now left.
  - destruct Hslot as [(_ & -> & ->) | (_ & e & Hm & ->)].
    + left. rewrite get_app. now rewrite Hown.
    + rewrite Hm in *. rewrite get_app.
      unfold JsMap.get in Hown. simpl in Hown.
      destruct (JsMap.hasKey owner e) eqn:He.
      * right. apply hasKey_true in He. inversion Hk as [| ? ? Hnot _]; subst.
        apply (proj2 (get_None _ _ _)) in Hnot. rewrite Hnot, get_singleton.
        destruct (eqb (getGlyphCacheKey glyph) (fst e)) eqn:Hkk; [| reflexivity].
        apply jsstring_eqb_eq in Hkk. exfalso.
        apply get_None in Hget. apply Hget. left. auto.
      * left. fold (JsMap.get owner base) in Hown. now rewrite Hown.
Qed.

(** The slot of a resident key is below the size of the map and is
    bound to that key only. *)
Lemma lruInvariant_slots this :
  lruInvariant this ->
  (forall k v, JsMap.get k (_cacheMap this) = Some v ->
               0 <= v < JsMap.size (_cacheMap this)) /\
  (forall k1 k2 v, JsMap.get k1 (_cacheMap this) = Some v ->
                   JsMap.get k2 (_cacheMap this) = Some v -> k1 = k2).
Proof.
  intros (Hk & Hv & Hb & Hs). split.
  - intros k v Hget. apply Hb. apply get_Some_In in Hget.
    change v with (snd (k, v)). now apply in_map.
  - intros k1 k2 v H1 H2. apply get_Some_In in H1, H2.
    eapply slot_owner; eauto.
Qed.

(** As long as no call has thrown, the cache map keeps its invariant.
    In every atlas reached from a new one by calls of [draw] that all
    completed (for a configuration with positive cell dimensions): the
    cache map holds at most [_capacity] entries; every slot stored in it
    lies in [0, _capacity); no two distinct keys are bound to the same
    slot; and a completed call of [draw] that binds its key to a slot
    another key owned has removed that owner from the map.  The object
    left by a call that throws is not covered. *)
Theorem cache_map_invariant (config : ICharAtlasConfig host) this :
  0 < scaledCharWidth config -> 0 < scaledCharHeight config ->
  reachable config this ->
  JsMap.size (_cacheMap this) <= _capacity this /\
  (forall k v, JsMap.get k (_cacheMap this) = Some v -> 0 <= v < _capacity this) /\
  (forall k1 k2 v,
      JsMap.get k1 (_cacheMap this) = Some v ->
      JsMap.get k2 (_cacheMap this) = Some v -> k1 = k2) /\
  (forall ctx glyph x y this' ctx' hit owner v,
      draw this ctx glyph x y = Normal (this', ctx', hit) ->
      JsMap.get owner (_cacheMap this) = Some v ->
      owner <> getGlyphCacheKey glyph ->
      JsMap.get (getGlyphCacheKey glyph) (_cacheMap this') = Some v ->
      JsMap.get owner (_cacheMap this') = None).
Proof.
  intros Hw Hh Hr.
  destruct (reachable_invariant _ _ Hw Hh Hr) as [_ Hinv].
  destruct (lruInvariant_slots _ Hinv) as [Hbound Huniq].
  split; [apply Hinv | split; [| split; [exact Huniq |]]].
  - intros k v Hget. apply Hbound in Hget. destruct Hinv as (_ & _ & _ & Hs). lia.
  - intros ctx glyph x y this' ctx' hit owner v Hdraw Hown Hne Hnew.
    assert (Hinv' : lruInvariant this') by (eapply lruInvariant_draw; eauto).
    destruct (draw_keeps_slot _ _ _ _ _ _ _ _ _ _ (proj1 Hinv) Hdraw Hown)
      as [Hkept | Hgone]; [| exact Hgone].
    exfalso. apply Hne.
    exact (proj2 (lruInvariant_slots _ Hinv') _ _ _ Hkept Hnew).
Qed.

(* ------------------------------------------------------------------ *)
(** ** Refusals *)

Lemma canCache_codePoint glyph :
  _canCache glyph = true <->
  exists cp, codePointAt0 (char glyph) = Some cp /\ cp < 256.
Proof.
  unfold _canCache, charCodeAt0, codePointAt0.
  destruct (char glyph) as [| c [| lo r]].
  - split; [discriminate | intros (cp & H & _); discriminate].
  - rewrite Z.ltb_lt. split; [eauto | intros (cp & [= <-] & H); exact H].
  - rewrite Z.ltb_lt.
    destruct (isHighSurrogate c && isLowSurrogate lo) eqn:Hs.
    + apply andb_true_iff in Hs. destruct Hs as [Hhi Hlo].
      unfold isHighSurrogate, isLowSurrogate in *.
      apply andb_true_iff in Hhi, Hlo.
      rewrite !Z.leb_le in Hhi, Hlo.
      split; [intros H; exfalso; lia | intros (cp & Hcp & H)].
      pose proof (f_equal (fun o => match o with Some z => z | None => 0 end) Hcp) as E.
      cbv beta iota in E. lia.
    + split; [eauto | intros (cp & [= <-] & H); exact H].
Qed.

(** [draw] returns [false] only on the refusal path. *)
Lemma draw_false_inv this ctx glyph x y this' ctx' :
  draw this ctx glyph x y = Normal (this', ctx', false) ->
  JsMap.get (getGlyphCacheKey glyph) (_cacheMap this) = None /\
  _canCache glyph = false /\ this' = this /\ ctx' = ctx.
Proof.
  unfold draw.
  destruct (JsMap.get (getGlyphCacheKey glyph) (_cacheMap this)); [discriminate |].
  destruct (_canCache glyph).
  - destruct (JsMap.size (_cacheMap this) <? _capacity this); simpl.
    + destruct (_drawToCache this glyph (JsMap.size (_cacheMap this))); simpl; discriminate.
    + destruct (mapShift (_cacheMap this)) as [[e |] m]; simpl; [| discriminate].
      destruct (_drawToCache (withCacheMap this m) glyph (snd e)); simpl; discriminate.
  - intros [= <- <-]. auto.
Qed.

(** C4.  [draw] returns [false] exactly when the key of the glyph is not
    in the cache map and [_canCache] refuses the glyph; [_canCache]
    accepts exactly the glyphs whose character has a code point below
    256, whatever [bg], [fg], [bold] and [dim] are; and a call that
    returns [false] leaves the atlas (cache map, atlas canvas, scratch
    context) and the destination context as they were. *)
Theorem draw_false_iff this ctx glyph x y :
  ((exists this' ctx', draw this ctx glyph x y = Normal (this', ctx', false)) <->
   (JsMap.get (getGlyphCacheKey glyph) (_cacheMap this) = None /\
    _canCache glyph = false)) /\
  (forall this' ctx',
      draw this ctx glyph x y = Normal (this', ctx', false) ->
      this' = this /\ ctx' = ctx) /\
  (forall g,
      _canCache g = true <->
      exists cp, codePointAt0 (char g) = Some cp /\ cp < 256) /\
  (forall g g', char g = char g' -> _canCache g = _canCache g').
Proof.
  split; [| split; [| split]].
  - split.
    + intros (this' & ctx' & Hdraw). apply draw_false_inv in Hdraw. tauto.
    + intros [Hget Hcan]. exists this, ctx. now apply draw_reject.
  - intros this' ctx' Hdraw. apply draw_false_inv in Hdraw. tauto.
  - apply canCache_codePoint.
  - intros g g' Hchar. unfold _canCache. now rewrite Hchar.
Qed.

(* ------------------------------------------------------------------ *)
(** ** Slot geometry *)

Lemma inRect_true x y w h px py :
  inRect x y w h px py = true <-> (x <= px < x + w /\ y <= py < y + h).
Proof. unfold inRect. rewrite !andb_true_iff, !Z.leb_le, !Z.ltb_lt. lia. Qed.

Lemma inRect_false x y w h px py :
  inRect x y w h px py = false <-> ~ (x <= px < x + w /\ y <= py < y + h).
Proof.
  rewrite <- inRect_true. destruct (inRect x y w h px py); split; congruence.
Qed.

(** Column and row of a slot in a grid of [gw] columns. *)
Lemma slot_column_row gw s :
  0 < gw -> 0 <= s ->
  Z.rem s gw = s mod gw /\ 0 <= s mod gw < gw /\ 0 <= s / gw /\
  s = gw * (s / gw) + s mod gw.
Proof.
  intros Hgw Hs. repeat split.
  - now apply Z.rem_mod_nonneg.
  - apply Z.mod_pos_bound; lia.
  - apply Z.mod_pos_bound; lia.
  - apply Z.div_pos; lia.
  - apply Z.div_mod; lia.
Qed.

Lemma grid_positive W H cw ch s :
  0 < cw -> 0 < ch -> 0 <= W -> 0 <= H ->
  0 <= s < (W / cw) * (H / ch) -> 0 < W / cw /\ 0 < H / ch.
Proof.
  intros Hcw Hch HW HH Hs.
  assert (0 <= W / cw) by (apply Z.div_pos; lia).
  assert (0 <= H / ch) by (apply Z.div_pos; lia).
  nia.
Qed.

Lemma grid_fits W cw : 0 < cw -> (W / cw) * cw <= W.
Proof. intros Hcw. rewrite Z.mul_comm. apply Z.mul_div_le; lia. Qed.

Lemma slot_row_bound gw gh s : 0 < gw -> 0 <= s < gw * gh -> s / gw < gh.
Proof. intros Hgw Hs. apply Z.div_lt_upper_bound; lia. Qed.

(** A pixel lies in one column (row) of cells only. *)
Lemma cell_index_unique cw a b p :
  0 < cw -> a * cw <= p < a * cw + cw -> b * cw <= p < b * cw + cw -> a = b.
Proof. intros Hcw Ha Hb. nia. Qed.

(** Column and row of a slot of the grid. *)
Lemma slot_in_grid this s :
  gridOf this -> 0 <= s < _capacity this ->
  _toCoordinates this s =
  ((s mod _width this) * scaledCharWidth (_config this),
   (s / _width this) * scaledCharHeight (_config this)) /\
  0 <= s mod _width this < _width this /\
  0 <= s / _width this < _height this /\
  s = _width this * (s / _width this) + s mod _width this.
Proof.
  intros (Hcw & Hch & HW & HH & Hgw & Hgh & Hcap) Hs.
  assert (Hgrid : 0 < _width this /\ 0 < _height this).
  { rewrite Hcap, Hgw, Hgh in Hs. rewrite Hgw, Hgh. eapply grid_positive; eauto. }
  destruct Hgrid as [Hw Hh].
  destruct (slot_column_row (_width this) s Hw (proj1 Hs)) as (Hrem & Hc & Hr & Hsplit).
  pose proof (slot_row_bound (_width this) (_height this) s Hw) as Hrb.
  rewrite <- Hcap in Hrb. specialize (Hrb Hs).
  unfold _toCoordinates. rewrite Hrem. repeat split; try lia; exact Hsplit.
Qed.

(** The cells of two distinct slots share no pixel. *)
Lemma cells_disjoint this s t px py :
  gridOf this -> 0 <= s < _capacity this -> 0 <= t < _capacity this ->
  s <> t -> inCell this s px py = true -> inCell this t px py = false.
Proof.
  intros Hg Hs Ht Hne Hin.
  destruct (inCell this t px py) eqn:Hin'; [| reflexivity].
  exfalso. apply Hne. unfold inCell in Hin, Hin'.
  destruct (slot_in_grid this s Hg Hs) as (Hcs & _ & _ & Hsplit_s).
  destruct (slot_in_grid this t Hg Ht) as (Hct & _ & _ & Hsplit_t).
  rewrite Hcs in Hin. rewrite Hct in Hin'. simpl in Hin, Hin'.
  apply inRect_true in Hin, Hin'.
  destruct Hg as (Hcw & Hch & _).
  assert (Hc : s mod _width this = t mod _width this)
    by (eapply cell_index_unique; [exact Hcw | apply Hin | apply Hin']).
  assert (Hr : s / _width this = t / _width this)
    by (eapply cell_index_unique; [exact Hch | apply Hin | apply Hin']).
  rewrite Hsplit_s, Hsplit_t, Hc, Hr. reflexivity.
Qed.

(** C7.  For an atlas whose grid is [_width = floor (textureWidth /
    cellWidth)] by [_height = floor (textureHeight / cellHeight)] with
    [_capacity = _width * _height] (positive cell dimensions, a texture
    of non-negative size): on the slots of [0, _capacity),
    [_toCoordinates s] is [((s mod _width) * cellWidth, floor (s /
    _width) * cellHeight)] and is injective; the cell of every slot lies
    within the texture; and the cells of two distinct slots share no
    pixel. *)
Theorem toCoordinates_geometry this :
  0 < scaledCharWidth (_config this) ->
  0 < scaledCharHeight (_config this) ->
  0 <= cvWidth (_cacheCanvas this) ->
  0 <= cvHeight (_cacheCanvas this) ->
  _width this = cvWidth (_cacheCanvas this) / scaledCharWidth (_config this) ->
  _height this = cvHeight (_cacheCanvas this) / scaledCharHeight (_config this) ->
  _capacity this = _width this * _height this ->
  (forall s, 0 <= s < _capacity this ->
      _toCoordinates this s =
      ((s mod _width this) * scaledCharWidth (_config this),
       (s / _width this) * scaledCharHeight (_config this))) /\
  (forall s t, 0 <= s < _capacity this -> 0 <= t < _capacity this ->
      _toCoordinates this s = _toCoordinates this t -> s = t) /\
  (forall s, 0 <= s < _capacity this ->
      0 <= fst (_toCoordinates this s) /\
      fst (_toCoordinates this s) + scaledCharWidth (_config this)
        <= cvWidth (_cacheCanvas this) /\
      0 <= snd (_toCoordinates this s) /\
      snd (_toCoordinates this s) + scaledCharHeight (_config this)
        <= cvHeight (_cacheCanvas this)) /\
  (forall s t px py, 0 <= s < _capacity this -> 0 <= t < _capacity this ->
      s <> t -> inCell this s px py = true -> inCell this t px py = false).
Proof.
  intros Hcw Hch HW HH Hgw Hgh Hcap.
  assert (Hg : gridOf this) by (unfold gridOf; tauto).
  pose proof (grid_fits (cvWidth (_cacheCanvas this)) _ Hcw) as HfitW.
  pose proof (grid_fits (cvHeight (_cacheCanvas this)) _ Hch) as HfitH.
  rewrite <- Hgw in HfitW. rewrite <- Hgh in HfitH.
  split; [| split; [| split]].
  - intros s Hs. apply (slot_in_grid this s Hg Hs).
  - intros s t Hs Ht Heq.
    destruct (slot_in_grid this s Hg Hs) as (Hcs & _ & _ & Hsplit_s).
    destruct (slot_in_grid this t Hg Ht) as (Hct & _ & _ & Hsplit_t).
    rewrite Hcs, Hct in Heq. injection Heq as Hx Hy.
    apply Z.mul_cancel_r in Hx; [| lia]. apply Z.mul_cancel_r in Hy; [| lia].
    rewrite Hsplit_s, Hsplit_t, Hx, Hy. reflexivity.
  - intros s Hs.
    destruct (slot_in_grid this s Hg Hs) as (Hcs & Hc & Hr & _).
    rewrite Hcs. simpl. nia.
  - intros s t px py Hs Ht Hne. now apply cells_disjoint.
Qed.

(* ------------------------------------------------------------------ *)
(** ** Orders of access *)

Lemma nodup_snoc (l : list GlyphCacheKey) k :
  nodup eq_dec (l ++ [k]) = remove eq_dec k (nodup eq_dec l) ++ [k].
Proof.
  induction l as [| x r IH]; simpl.
  - reflexivity.
  - destruct (eq_dec k x) as [<- | Hne].
    + destruct (in_dec eq_dec k (r ++ [k])) as [_ | Hn];
        [| exfalso; apply Hn, in_or_app; right; now left].
      rewrite IH. destruct (in_dec eq_dec k r); simpl; [reflexivity |].
      destruct (eq_dec k k); congruence.
    + destruct (in_dec eq_dec x (r ++ [k])) as [Hin | Hn];
        destruct (in_dec eq_dec x r) as [Hin' | Hn'].
      * exact IH.
      * exfalso. apply in_app_or in Hin. destruct Hin as [? | [? | []]]; [contradiction | congruence].
      * exfalso. apply Hn, in_or_app. now left.
      * simpl. destruct (eq_dec k x); [congruence |]. simpl. now rewrite IH.
Qed.
















(* ------------------------------------------------------------------ *)
(** ** Runs without eviction *)

Lemma drawAll_snoc this ctx calls this1 ctx1 hits c this2 ctx2 hit :
  drawAll this ctx calls = Normal (this1, ctx1, hits) ->
  draw this1 ctx1 (callGlyph c) (callX c) (callY c) = Normal (this2, ctx2, hit) ->
  drawAll this ctx (calls ++ [c]) = Normal (this2, ctx2, hits ++ [hit]).
Proof.
  revert this ctx hits. induction calls as [| c0 r IH]; simpl; intros this ctx hits Hrun Hdraw.
  - injection Hrun as <- <- <-. now rewrite Hdraw.
  - destruct (draw this ctx (callGlyph c0) (callX c0) (callY c0))
      as [[[ta ca] ha] |]; simpl in *; [| discriminate].
    destruct (drawAll ta ca r) as [[[tb cb] hb] |] eqn:Hr; simpl in *; [| discriminate].
    injection Hrun as <- <- <-.
    now rewrite (IH _ _ _ Hr Hdraw).
Qed.

Lemma accessedKeys_snoc calls c :
  accessedKeys (calls ++ [c]) =
  accessedKeys calls ++
  (if _canCache (callGlyph c) then [getGlyphCacheKey (callGlyph c)] else []).
Proof.
  unfold accessedKeys. rewrite filter_app, map_app. simpl.
  now destruct (_canCache (callGlyph c)).
Qed.

(** Only keys of cacheable glyphs are accessed. *)
Lemma accessedKeys_cacheable calls glyph :
  In (getGlyphCacheKey glyph) (accessedKeys calls) -> _canCache glyph = true.
Proof.
  unfold accessedKeys. intros Hin. apply in_map_iff in Hin.
  destruct Hin as (c & Hkey & Hc). apply filter_In in Hc.
  rewrite <- (canCache_key _ _ Hkey). apply Hc.
Qed.

Lemma builtFor_capacity config this :
  builtFor config this -> _capacity this = _capacity (newDynamicCharAtlas config).
Proof. intros (_ & _ & Hw & Hh & Hc & _). rewrite Hc, Hw, Hh. reflexivity. Qed.

Lemma rasterizable_colors (config : ICharAtlasConfig host) glyph :
  rasterizable config glyph ->
  exists fill ink,
    backgroundColorOf config glyph = Some fill /\
    foregroundColorOf config glyph = Some ink.
Proof.
  intros [Hb Hf].
  destruct (backgroundColorOf config glyph) as [fill |]; [| congruence].
  destruct (foregroundColorOf config glyph) as [ink |]; [| congruence].
  eauto.
Qed.



(* ------------------------------------------------------------------ *)
(** ** A hit refreshes recency *)

(** C2 (amended).  In a reachable atlas of capacity at least 2 whose
    cache map is full, after a [draw] that hits the key [K] the next
    admission of a new cacheable key evicts [victim], the least recently
    used of the resident keys other than [K] (the oldest entry once [K]
    is set aside), and binds the new key to its slot; [K] stays
    resident in its slot. *)
Theorem hit_protects_from_eviction (config : ICharAtlasConfig host)
        this ctx glyphK x y glyphN x' y' :
  0 < scaledCharWidth config -> 0 < scaledCharHeight config ->
  reachable config this ->
  2 <= _capacity this ->
  JsMap.size (_cacheMap this) = _capacity this ->
  JsMap.get (getGlyphCacheKey glyphK) (_cacheMap this) <> None ->
  JsMap.get (getGlyphCacheKey glyphN) (_cacheMap this) = None ->
  _canCache glyphN = true ->
  rasterizable config glyphN ->
  exists slotK victim others this1 ctx1 this2 ctx2,
    JsMap.get (getGlyphCacheKey glyphK) (_cacheMap this) = Some slotK /\
    JsMap.delete (getGlyphCacheKey glyphK) (_cacheMap this) = victim :: others /\
    draw this ctx glyphK x y = Normal (this1, ctx1, true) /\
    draw this1 ctx1 glyphN x' y' = Normal (this2, ctx2, true) /\
    _cacheMap this2 =
      others ++ [(getGlyphCacheKey glyphK, slotK);
                 (getGlyphCacheKey glyphN, snd victim)] /\
    JsMap.get (getGlyphCacheKey glyphK) (_cacheMap this2) = Some slotK /\
    JsMap.get (fst victim) (_cacheMap this2) = None /\
    fst victim <> getGlyphCacheKey glyphK.
Proof.
  intros Hcw Hch Hreach Hcap Hfull HK HN Hcan Hr.
  destruct (reachable_invariant _ _ Hcw Hch Hreach) as [Hb Hinv].
  set (K := getGlyphCacheKey glyphK) in *.
  set (N := getGlyphCacheKey glyphN) in *.
  destruct (JsMap.get K (_cacheMap this)) as [slotK |] eqn:HgetK; [clear HK | congruence].
  pose proof (draw_hit this ctx glyphK x y _ HgetK) as Hhit. cbv zeta in Hhit.
  fold K in Hhit.
  set (this1 := withCacheMap this (JsMap.delete K (_cacheMap this) ++ [(K, slotK)])) in *.
  assert (Hinv1 : lruInvariant this1) by (eapply lruInvariant_draw; eauto).
  assert (Hsize1 : JsMap.size (_cacheMap this1) = _capacity this).
  { rewrite <- Hfull. unfold JsMap.size. f_equal. apply Permutation_length.
    apply delete_reinsert_Permutation; [apply Hinv | exact HgetK]. }
  assert (HneKN : K <> N) by congruence.
  assert (HN1 : JsMap.get N (_cacheMap this1) = None).
  { unfold this1. simpl.
    rewrite get_app, get_delete_other, HN, get_singleton by congruence.
    destruct (eqb K N) eqn:E; [apply jsstring_eqb_eq in E; congruence | reflexivity]. }
  assert (HK1 : In (K, slotK) (_cacheMap this1))
    by (unfold this1; simpl; apply in_or_app; right; now left).
  destruct (rasterizable_colors _ _ Hr) as (fill & ink & Hbg & Hfg).
  assert (Hcfg : _config this1 = config) by apply Hb.
  rewrite <- Hcfg in Hbg, Hfg.
  assert (Hnofree : ~ JsMap.size (_cacheMap this1) < _capacity this1)
    by (rewrite Hsize1; simpl; lia).
  assert (Hshape : exists victim others,
             JsMap.delete K (_cacheMap this) = victim :: others).
  { destruct (JsMap.delete K (_cacheMap this)) as [| victim others] eqn:Hdel; [| eauto].
    exfalso. unfold this1 in Hsize1. simpl in Hsize1. try rewrite Hdel in Hsize1.
    change (JsMap.size [(K, slotK)]) with 1 in Hsize1. lia. }
  destruct Hshape as (victim & others & Hdel).
  assert (Hentries : _cacheMap this1 = victim :: (others ++ [(K, slotK)]))
    by (unfold this1; simpl; now rewrite Hdel).
  destruct (draw_admit_evict this1 (_drawFromCache this1 ctx slotK x y)
              glyphN x' y' _ _ _ _
              HN1 Hcan Hnofree Hentries (proj1 Hinv1) Hbg Hfg) as (this2 & H2 & Hdraw).
  cbv zeta in Hdraw. fold N in Hdraw.
  assert (Hinv2 : lruInvariant
                    (withCacheMap this2 ((others ++ [(K, slotK)]) ++ [(N, snd victim)])))
    by (eapply lruInvariant_draw; eauto).
  assert (Hnd1 : NoDup (JsMap.keys (_cacheMap this1))) by apply Hinv1.
  rewrite Hentries in Hnd1. simpl in Hnd1.
  apply NoDup_cons_iff in Hnd1. destruct Hnd1 as [Hvict _].
  exists slotK, victim, others. eexists. eexists. eexists. eexists.
  split; [reflexivity |].
  split; [exact Hdel |].
  split; [exact Hhit |].
  split; [exact Hdraw |].
  split; [simpl; now rewrite <- app_assoc |].
  split; [| split].
  - apply In_get_Some; [apply Hinv2 |]. simpl.
    apply in_or_app. left. apply in_or_app. right. now left.
  - apply get_None. simpl. rewrite keys_app. simpl. intros Hin.
    apply in_app_or in Hin. destruct Hin as [Hin | [Hin | []]].
    + now apply Hvict.
    + apply get_None in HN1. apply HN1. rewrite Hentries. simpl. now left.
  - intros Heq. apply Hvict. rewrite keys_app. apply in_or_app. right.
    simpl. left. now symmetry.
Qed.


(* ------------------------------------------------------------------ *)
(** ** Drawing from the cache *)

Lemma zrange_In n i : In i (zrange n) <-> 0 <= i < n.
Proof.
  unfold zrange. rewrite in_map_iff. split.
  - intros (k & <- & Hk). apply in_seq in Hk. lia.
  - intros Hi. exists (Z.to_nat i). split; [lia |]. apply in_seq. lia.
Qed.

(** Reading a rectangle depends on the pixels of the rectangle only. *)
Lemma readRect_ext pix pix' sx sy sw sh :
  (forall i j, 0 <= i < sw -> 0 <= j < sh ->
               pix (sx + i) (sy + j) = pix' (sx + i) (sy + j)) ->
  readRect pix sx sy sw sh = readRect pix' sx sy sw sh.
Proof.
  intros Hext. unfold readRect. f_equal.
  rewrite !flat_map_concat_map. f_equal.
  apply map_ext_in. intros j Hj. apply map_ext_in. intros i Hi.
  apply Hext; now apply zrange_In.
Qed.

Lemma pixelAt_putImageData_outside cv img dx dy px py :
  inRect dx dy (imgWidth img) (imgHeight img) px py = false ->
  pixelAt (putImageData cv img dx dy) px py = pixelAt cv px py.
Proof.
  intros Hout. unfold pixelAt, putImageData. simpl.
  rewrite Hout, andb_false_r. reflexivity.
Qed.

Lemma drawFromCache_blit this ctx index x y :
  _drawFromCache this ctx index x y =
  ctx ++ [DrawImage (cellImage this index) x y
            (scaledCharWidth (_config this)) (scaledCharHeight (_config this))].
Proof.
  unfold _drawFromCache, cellImage, drawImage.
  now destruct (_toCoordinates this index).
Qed.

Lemma builtFor_gridOf (config : ICharAtlasConfig host) this :
  0 < scaledCharWidth config -> 0 < scaledCharHeight config ->
  builtFor config this -> gridOf this.
Proof.
  intros Hcw Hch (Hcfg & _ & Hw & Hh & Hc & HW & HH). unfold gridOf.
  rewrite Hcfg, HW, HH. unfold TEXTURE_WIDTH, TEXTURE_HEIGHT in *.
  repeat split; try assumption; lia.
Qed.

(** A hit reorders the entries and changes no binding. *)
Lemma get_reinsert (m : JsMap.t Z) k index k' :
  JsMap.get k m = Some index ->
  JsMap.get k' (JsMap.delete k m ++ [(k, index)]) = JsMap.get k' m.
Proof.
  intros Hget. rewrite get_app, get_singleton.
  destruct (eq_dec k' k) as [-> | Hne].
  - now rewrite get_delete_same, jsstring_eqb_refl.
  - rewrite get_delete_other by assumption.
    destruct (JsMap.get k' m); [reflexivity |].
    destruct (eqb k k') eqn:E; [apply jsstring_eqb_eq in E; congruence | reflexivity].
Qed.

(** A call that returns [true] leaves the key of its glyph resident and
    copies the cell of its slot to the destination. *)
Lemma draw_true_blit this ctx glyph x y this' ctx' :
  lruInvariant this ->
  draw this ctx glyph x y = Normal (this', ctx', true) ->
  exists index,
    JsMap.get (getGlyphCacheKey glyph) (_cacheMap this') = Some index /\
    _config this' = _config this /\
    ctx' = ctx ++ [DrawImage (cellImage this' index) x y
                     (scaledCharWidth (_config this))
                     (scaledCharHeight (_config this))].
Proof.
  intros Hinv Hdraw.
  assert (Hinv' : lruInvariant this') by (eapply lruInvariant_draw; eauto).
  destruct (draw_Normal_inv _ _ _ _ _ _ _ _ (proj1 Hinv) Hdraw)
    as [(index & Hget & _ & Hthis & Hctx) | [(_ & _ & Hfalse & _) |
        (index & base & img & ops & Hget & _ & _ & _ & _ & _ & _ & Hthis & Hctx)]];
    [| discriminate |]; exists index.
  - rewrite Hctx, drawFromCache_blit. subst this'. simpl.
    rewrite get_reinsert, Hget by assumption. auto.
  - rewrite Hctx, drawFromCache_blit.
    split; [| split; [subst this'; reflexivity | subst this'; reflexivity]].
    apply In_get_Some; [apply Hinv' |].
    subst this'. simpl. apply in_or_app. right. now left.
Qed.

(** A call that does not evict the key [k] leaves [k] its slot and the
    cell of that slot its pixels. *)
Lemma draw_keeps_cell (config : ICharAtlasConfig host)
      this ctx glyph x y this' ctx' hit k index :
  0 < scaledCharWidth config -> 0 < scaledCharHeight config ->
  builtFor config this -> lruInvariant this ->
  draw this ctx glyph x y = Normal (this', ctx', hit) ->
  JsMap.get k (_cacheMap this) = Some index ->
  JsMap.get k (_cacheMap this') <> None ->
  JsMap.get k (_cacheMap this') = Some index /\
  cellImage this' index = cellImage this index.
Proof.
  intros Hcw Hch Hb Hinv Hdraw Hk Hkept.
  assert (Hinv' : lruInvariant this') by (eapply lruInvariant_draw; eauto).
  assert (Hk' : JsMap.get k (_cacheMap this') = Some index).
  { destruct (draw_keeps_slot _ _ _ _ _ _ _ _ _ _ (proj1 Hinv) Hdraw Hk); congruence. }
  split; [exact Hk' |].
  destruct (draw_Normal_inv _ _ _ _ _ _ _ _ (proj1 Hinv) Hdraw)
    as [(i & _ & _ & -> & _) | [(_ & _ & _ & -> & _) |
        (slot & base & img & ops & Hget & _ & _ & Hslot & Hiw & Hih & _ & Hthis & _)]];
    [reflexivity | reflexivity |].
  assert (Hnew : JsMap.get (getGlyphCacheKey glyph) (_cacheMap this') = Some slot).
  { apply In_get_Some; [apply Hinv' |].
    subst this'. simpl. apply in_or_app. right. now left. }
  destruct (lruInvariant_slots _ Hinv') as [Hbound Huniq].
  assert (Hne : index <> slot).
  { intros ->. pose proof (Huniq _ _ _ Hk' Hnew) as Heq. subst k. congruence. }
  assert (Hcap : _capacity this' = _capacity this) by (subst this'; reflexivity).
  assert (Hidx : 0 <= index < _capacity this).
  { rewrite <- Hcap. pose proof (Hbound _ _ Hk'). destruct Hinv' as (_ & _ & _ & Hs). lia. }
  assert (Hslt : 0 <= slot < _capacity this).
  { rewrite <- Hcap. pose proof (Hbound _ _ Hnew). destruct Hinv' as (_ & _ & _ & Hs). lia. }
  pose proof (builtFor_gridOf _ _ Hcw Hch Hb) as Hgrid.
  subst this'. unfold cellImage. simpl.
  change (_toCoordinates
            (mkAtlas (_config this) (base ++ [(getGlyphCacheKey glyph, slot)])
               (putImageData (_cacheCanvas this) img
                  (fst (_toCoordinates this slot)) (snd (_toCoordinates this slot)))
               (_tmpCanvas this) (_tmpCtx this ++ ops)
               (_capacity this) (_width this) (_height this)) index)
    with (_toCoordinates this index).
  apply readRect_ext. intros i j Hi Hj.
  apply pixelAt_putImageData_outside. rewrite Hiw, Hih.
  apply (cells_disjoint this index slot _ _ Hgrid Hidx Hslt Hne).
  unfold inCell. apply inRect_true. unfold _toCoordinates. simpl. lia.
Qed.

(** Along calls that do not evict [k], its slot and the pixels of its
    cell stay, and so do the invariants. *)
Lemma runsKeeping_cell (config : ICharAtlasConfig host) k this this' index :
  0 < scaledCharWidth config -> 0 < scaledCharHeight config ->
  builtFor config this -> lruInvariant this ->
  JsMap.get k (_cacheMap this) = Some index ->
  runsKeeping k this this' ->
  builtFor config this' /\ lruInvariant this' /\
  JsMap.get k (_cacheMap this') = Some index /\
  cellImage this' index = cellImage this index.
Proof.
  intros Hcw Hch Hb Hinv Hk Hrun.
  induction Hrun as [this | this this1 ctx glyph x y this2 ctx' hit Hrun IH Hdraw Hkept].
  - auto.
  - destruct (IH Hb Hinv Hk) as (Hb1 & Hinv1 & Hk1 & Hcell1).
    destruct (draw_keeps_cell config _ _ _ _ _ _ _ _ _ _ Hcw Hch Hb1 Hinv1 Hdraw Hk1 Hkept)
      as [Hk2 Hcell2].
    split; [| split; [| split]].
    + eapply builtFor_draw; eauto. apply Hinv1.
    + eapply lruInvariant_draw; eauto.
    + exact Hk2.
    + congruence.
Qed.

(** As long as no call has thrown, a hit repeats the pixels.  Let
    [glyph] be drawn from the cache or admitted to it by a call of [draw]
    on an atlas reached by completed calls, and let calls of [draw]
    follow, each of which completes and none of which evicts its key.
    Then a further [draw] of [glyph] takes the hit path: it returns
    [true] and copies to the destination, at the place asked for, the
    very pixels the first call copied; it leaves the atlas canvas and
    the scratch context as they were, so nothing is rasterized and
    nothing is written to the atlas; every key keeps its binding; only
    the place of the hit key in the recency order changes (it becomes
    the most recent).  A run in which a call throws is not covered. *)
Theorem hit_draws_from_cache (config : ICharAtlasConfig host)
        this0 ctx0 glyph x y this1 ctx1 this2 :
  0 < scaledCharWidth config -> 0 < scaledCharHeight config ->
  reachable config this0 ->
  draw this0 ctx0 glyph x y = Normal (this1, ctx1, true) ->
  runsKeeping (getGlyphCacheKey glyph) this1 this2 ->
  exists index image,
    JsMap.get (getGlyphCacheKey glyph) (_cacheMap this2) = Some index /\
    ctx1 = ctx0 ++ [DrawImage image x y
                      (scaledCharWidth config) (scaledCharHeight config)] /\
    forall ctx x' y',
    exists this3,
      draw this2 ctx glyph x' y' =
        Normal (this3,
                ctx ++ [DrawImage image x' y'
                          (scaledCharWidth config) (scaledCharHeight config)],
                true) /\
      _cacheCanvas this3 = _cacheCanvas this2 /\
      _tmpCtx this3 = _tmpCtx this2 /\
      rasterizations this3 = rasterizations this2 /\
      (forall k, JsMap.get k (_cacheMap this3) = JsMap.get k (_cacheMap this2)) /\
      _cacheMap this3 =
        JsMap.delete (getGlyphCacheKey glyph) (_cacheMap this2)
        ++ [(getGlyphCacheKey glyph, index)].
Proof.
  intros Hcw Hch Hreach Hdraw Hrun.
  destruct (reachable_invariant _ _ Hcw Hch Hreach) as [Hb0 Hinv0].
  assert (Hb1 : builtFor config this1) by (eapply builtFor_draw; eauto; apply Hinv0).
  assert (Hinv1 : lruInvariant this1) by (eapply lruInvariant_draw; eauto).
  destruct (draw_true_blit _ _ _ _ _ _ _ Hinv0 Hdraw) as (index & Hget1 & Hcfg1 & Hctx1).
  destruct (runsKeeping_cell config _ _ _ _ Hcw Hch Hb1 Hinv1 Hget1 Hrun)
    as (Hb2 & Hinv2 & Hget2 & Hcell).
  assert (Hcfg0 : _config this0 = config) by apply Hb0.
  assert (Hcfg2 : _config this2 = config) by apply Hb2.
  exists index, (cellImage this1 index).
  split; [exact Hget2 | split; [now rewrite Hctx1, Hcfg0 |]].
  intros ctx x' y'.
  pose proof (draw_hit this2 ctx glyph x' y' _ Hget2) as Hhit. cbv zeta in Hhit.
  eexists. split; [rewrite Hhit; f_equal; f_equal |].
  - rewrite drawFromCache_blit. simpl. rewrite Hcfg2. do 3 f_equal.
    rewrite <- Hcell. reflexivity.
  - simpl. repeat split.
    intros k. now apply get_reinsert.
Qed.

(* ------------------------------------------------------------------ *)
(** ** Rasterizing into the atlas *)

(** The [i]-th element of the [j]-th of [h] rows of length [w] laid end
    to end. *)
Lemma nth_flat_rows (A : Type) (g : nat -> list A) (d : A) (w : nat) :
  (forall r, length (g r) = w) ->
  forall h s j i, (j < h)%nat -> (i < w)%nat ->
    nth (j * w + i) (flat_map g (seq s h)) d = nth i (g (s + j)%nat) d.
Proof.
  intros Hlen. induction h as [| h IH]; intros s j i Hj Hi; [lia |].
  simpl seq. simpl flat_map. destruct j as [| j].
  - rewrite app_nth1 by (rewrite Hlen; lia). now rewrite Nat.add_0_r.
  - rewrite app_nth2 by (rewrite Hlen; lia). rewrite Hlen.
    replace (S j * w + i - w)%nat with (j * w + i)%nat by lia.
    rewrite IH by lia. f_equal. f_equal. lia.
Qed.

Lemma zrange_length n : length (zrange n) = Z.to_nat n.
Proof. unfold zrange. now rewrite length_map, length_seq. Qed.

Lemma zrange_nth n i d : 0 <= i < n -> nth (Z.to_nat i) (zrange n) d = i.
Proof.
  intros Hi. unfold zrange.
  rewrite (nth_indep _ d (Z.of_nat 0)) by (rewrite length_map, length_seq; lia).
  rewrite map_nth, seq_nth by lia. lia.
Qed.

Lemma flat_map_map (A B C : Type) (f : B -> list C) (g : A -> B) l :
  flat_map f (map g l) = flat_map (fun x => f (g x)) l.
Proof. induction l as [| x r IH]; simpl; [reflexivity | now rewrite IH]. Qed.

(** The pixel of an image read from a bitmap. *)
Lemma imagePixel_readRect pix sx sy sw sh i j :
  0 <= i < sw -> 0 <= j < sh ->
  imagePixel (readRect pix sx sy sw sh) i j = pix (sx + i) (sy + j).
Proof.
  intros Hi Hj. unfold imagePixel, readRect. simpl.
  unfold zrange at 2. rewrite flat_map_map.
  replace (Z.to_nat (j * sw + i)) with (Z.to_nat j * Z.to_nat sw + Z.to_nat i)%nat by nia.
  rewrite (nth_flat_rows _ _ _ (Z.to_nat sw))
    by (try (intros r; rewrite length_map; apply zrange_length); lia).
  simpl.
  rewrite (nth_indep _ _ (pix (sx + 0) (sy + Z.of_nat (Z.to_nat j))))
    by (rewrite length_map, zrange_length; lia).
  rewrite (map_nth (fun i0 => pix (sx + i0) (sy + Z.of_nat (Z.to_nat j)))).
  rewrite zrange_nth by lia. now rewrite Z2Nat.id by lia.
Qed.

Lemma clearPixel_transparentBlack c : clearPixel c transparentBlack = transparentBlack.
Proof. unfold clearPixel. now destruct (matchesColor c transparentBlack). Qed.

Lemma imagePixel_clearColor img c i j :
  imagePixel (clearColor img c) i j = clearPixel c (imagePixel img i j).
Proof.
  unfold imagePixel, clearColor. simpl.
  rewrite <- (clearPixel_transparentBlack c) at 1. apply map_nth.
Qed.




(* ------------------------------------------------------------------ *)
(** ** Completion of [draw] *)

(** X11.  On a reachable atlas with at least one slot, [draw] completes
    for every glyph that is refused or can be rasterized: when it
    evicts, the cache map is not empty. *)
Lemma draw_completes (config : ICharAtlasConfig host) this ctx glyph x y :
  0 < scaledCharWidth config -> 0 < scaledCharHeight config ->
  reachable config this ->
  1 <= _capacity this ->
  (_canCache glyph = true -> rasterizable config glyph) ->
  exists this' ctx' hit, draw this ctx glyph x y = Normal (this', ctx', hit).
Proof.
  intros Hcw Hch Hreach Hcap Hr.
  destruct (reachable_invariant _ _ Hcw Hch Hreach) as [Hb Hinv].
  destruct (JsMap.get (getGlyphCacheKey glyph) (_cacheMap this)) as [index |] eqn:Hget.
  - pose proof (draw_hit this ctx glyph x y _ Hget) as H. cbv zeta in H. eauto.
  - destruct (_canCache glyph) eqn:Hcan.
    + destruct (rasterizable_colors _ _ (Hr eq_refl)) as (fill & ink & Hbg & Hfg).
      assert (Hcfg : _config this = config) by apply Hb.
      rewrite <- Hcfg in Hbg, Hfg.
      destruct (Z_lt_dec (JsMap.size (_cacheMap this)) (_capacity this)) as [Hfree | Hfull].
      * destruct (draw_admit_free this ctx glyph x y _ _ Hget Hcan Hfree Hbg Hfg)
          as (this2 & _ & H). cbv zeta in H. eauto.
      * destruct (_cacheMap this) as [| e rest] eqn:Hm.
        { exfalso. apply Hfull. change (JsMap.size (@nil (GlyphCacheKey * Z))) with 0. lia. }
        rewrite <- Hm in Hget, Hfull.
        destruct (draw_admit_evict this ctx glyph x y _ _ _ _
                    Hget Hcan Hfull Hm (proj1 Hinv) Hbg Hfg) as (this2 & _ & H).
        cbv zeta in H. eauto.
    + pose proof (draw_reject this ctx glyph x y Hget Hcan). eauto.
Qed.

(** On a new atlas without slots, the first [draw] of a cacheable glyph
    throws: [mapShift] returns [undefined] and [draw] reads its member
    [[1]]. *)
Lemma draw_throws_without_slots (config : ICharAtlasConfig host) ctx glyph x y :
  _capacity (newDynamicCharAtlas config) <= 0 ->
  _canCache glyph = true ->
  draw (newDynamicCharAtlas config) ctx glyph x y = Throw TypeError.
Proof.
  intros Hcap Hcan. apply draw_throw_empty; [assumption | | reflexivity].
  change (JsMap.size (_cacheMap (newDynamicCharAtlas config))) with 0. lia.
Qed.

(* ------------------------------------------------------------------ *)
(** ** The texture *)

(** C10 (amended).  The texture dimensions are the constants
    [TEXTURE_WIDTH] and [TEXTURE_HEIGHT], both 1024, whatever the
    configuration: every constructed atlas surface is 1024 by 1024, and
    its grid and capacity follow from these constants and the cell
    dimensions of the configuration. *)
Theorem constructor_texture (config : ICharAtlasConfig host) :
  TEXTURE_WIDTH = 1024 /\ TEXTURE_HEIGHT = 1024 /\
  cvWidth (_cacheCanvas (newDynamicCharAtlas config)) = 1024 /\
  cvHeight (_cacheCanvas (newDynamicCharAtlas config)) = 1024 /\
  _width (newDynamicCharAtlas config) = 1024 / scaledCharWidth config /\
  _height (newDynamicCharAtlas config) = 1024 / scaledCharHeight config /\
  _capacity (newDynamicCharAtlas config) =
    (1024 / scaledCharWidth config) * (1024 / scaledCharHeight config).
Proof. repeat split. Qed.

Lemma drawAll_reachable (config : ICharAtlasConfig host) calls :
  forall this ctx this' ctx' hits,
    reachable config this ->
    drawAll this ctx calls = Normal (this', ctx', hits) ->
    reachable config this'.
Proof.
  induction calls as [| c r IH]; simpl; intros this ctx this' ctx' hits Hreach Hrun.
  - now injection Hrun as <- _ _.
  - destruct (draw this ctx (callGlyph c) (callX c) (callY c))
      as [[[ta ca] ha] |] eqn:Hdraw; simpl in Hrun; [| discriminate].
    destruct (drawAll ta ca r) as [[[tb cb] hb] |] eqn:Hr; simpl in Hrun; [| discriminate].
    injection Hrun as <- _ _.
    eapply IH; [| exact Hr]. eapply reach_draw; eauto.
Qed.

Lemma drawAll_snoc_inv calls :
  forall this ctx c this2 ctx2 hs,
    drawAll this ctx (calls ++ [c]) = Normal (this2, ctx2, hs) ->
    exists this1 ctx1 hits hit,
      drawAll this ctx calls = Normal (this1, ctx1, hits) /\
      draw this1 ctx1 (callGlyph c) (callX c) (callY c) = Normal (this2, ctx2, hit) /\
      hs = hits ++ [hit].
Proof.
  induction calls as [| c0 r IH]; simpl; intros this ctx c this2 ctx2 hs Hrun.
  - destruct (draw this ctx (callGlyph c) (callX c) (callY c))
      as [[[ta ca] ha] |] eqn:Hdraw; simpl in Hrun; [| discriminate].
    injection Hrun as <- <- <-. exists this, ctx, [], ha. repeat split. exact Hdraw.
  - destruct (draw this ctx (callGlyph c0) (callX c0) (callY c0))
      as [[[ta ca] ha] |]; simpl in Hrun; [| discriminate].
    destruct (drawAll ta ca (r ++ [c])) as [[[tb cb] hb] |] eqn:Hr;
      simpl in Hrun; [| discriminate].
    injection Hrun as <- <- <-.
    destruct (IH _ _ _ _ _ _ Hr) as (this1 & ctx1 & hits & hit & Hrun1 & Hdraw & ->).
    exists this1, ctx1, (ha :: hits), hit. simpl. rewrite Hrun1. simpl.
    repeat split. exact Hdraw.
Qed.

End AtlasFacts.

(* ================================================================== *)
(** * Examples *)

Lemma atlasAfter_reachable config run :
  reachable config (Demo.atlasAfter config run).
Proof.
  unfold Demo.atlasAfter.
  destruct (drawAll (newDynamicCharAtlas config) [] run) as [[[this ctx] hits] |] eqn:Hrun.
  - eapply drawAll_reachable; [apply reach_new | exact Hrun].
  - apply reach_new.
Qed.

(** The last call of a completed run, on what the calls before it left. *)
Lemma run_step config run c hits hit :
  Demo.hitsAfter config (run ++ [c]) = Some (hits ++ [hit]) ->
  draw (Demo.atlasAfter config run) (Demo.ctxAfter config run)
       (callGlyph c) (callX c) (callY c) =
  Normal (Demo.atlasAfter config (run ++ [c]), Demo.ctxAfter config (run ++ [c]), hit).
Proof.
  unfold Demo.hitsAfter, Demo.atlasAfter, Demo.ctxAfter.
  destruct (drawAll (newDynamicCharAtlas config) [] (run ++ [c]))
    as [[[this2 ctx2] hs] |] eqn:Hrun; [| discriminate].
  intros [= ->].
  destruct (drawAll_snoc_inv _ _ _ _ _ _ _ _ Hrun)
    as (this1 & ctx1 & hits1 & hit1 & Hrun1 & Hdraw & Heq).
  apply app_inj_tail in Heq. destruct Heq as [_ <-].
  now rewrite Hrun1.
Qed.


(** On the full atlas of four cells left by [Demo.calls] (keys b, a, c,
    d from the least to the most recent), a hit on a followed by the
    admission of e evicts b and keeps a in slot 0. *)
Lemma hit_protects_from_eviction_witness :
  0 < scaledCharWidth Demo.fourCells /\
  0 < scaledCharHeight Demo.fourCells /\
  reachable Demo.fourCells Demo.full /\
  2 <= _capacity Demo.full /\
  JsMap.size (_cacheMap Demo.full) = _capacity Demo.full /\
  JsMap.get Demo.keyA (_cacheMap Demo.full) <> None /\
  JsMap.get (getGlyphCacheKey Demo.glyphE) (_cacheMap Demo.full) = None /\
  _canCache Demo.glyphE = true /\
  rasterizable Demo.fourCells Demo.glyphE /\
  exists this1 ctx1 this2 ctx2,
    draw Demo.full [] Demo.glyphA 0 0 = Normal (this1, ctx1, true) /\
    draw this1 ctx1 Demo.glyphE 0 0 = Normal (this2, ctx2, true) /\
    JsMap.get Demo.keyA (_cacheMap this2) = Some 0 /\
    JsMap.get Demo.keyB (_cacheMap this2) = None.
Proof.
  assert (H1 : 0 < scaledCharWidth Demo.fourCells) by reflexivity.
  assert (H2 : 0 < scaledCharHeight Demo.fourCells) by reflexivity.
  assert (H3 : reachable Demo.fourCells Demo.full) by apply atlasAfter_reachable.
  assert (H4 : 2 <= _capacity Demo.full) by (apply Z.leb_le; lazy; reflexivity).
  assert (H5 : JsMap.size (_cacheMap Demo.full) = _capacity Demo.full) by (lazy; reflexivity).
  assert (H6 : JsMap.get Demo.keyA (_cacheMap Demo.full) <> None) by (lazy; discriminate).
  assert (H7 : JsMap.get (getGlyphCacheKey Demo.glyphE) (_cacheMap Demo.full) = None)
    by (lazy; reflexivity).
  assert (H8 : _canCache Demo.glyphE = true) by reflexivity.
  assert (H9 : rasterizable Demo.fourCells Demo.glyphE) by (split; vm_compute; discriminate).
  repeat (split; [assumption |]).
  destruct (hit_protects_from_eviction Demo.host Demo.fourCells Demo.full [] Demo.glyphA 0 0
              Demo.glyphE 0 0 H1 H2 H3 H4 H5 H6 H7 H8 H9)
    as (slotK & victim & others & this1 & ctx1 & this2 & ctx2
        & HslotK & Hvictim & Hd1 & Hd2 & _ & HK & HV & _).
  exists this1, ctx1, this2, ctx2.
  assert (HslotK' : Some 0 = Some slotK) by (rewrite <- HslotK; lazy; reflexivity).
  assert (Hvictim' : victim :: others
                     = [(Demo.keyB, 1); (getGlyphCacheKey Demo.glyphC, 2);
                        (getGlyphCacheKey Demo.glyphD, 3)])
    by (rewrite <- Hvictim; lazy; reflexivity).
  injection HslotK' as <-. injection Hvictim' as -> _.
  repeat split; assumption.
Defined.

(** The atlas left by [Demo.calls] is reachable and within its capacity. *)
Lemma cache_map_invariant_witness :
  0 < scaledCharWidth Demo.fourCells /\
  0 < scaledCharHeight Demo.fourCells /\
  reachable Demo.fourCells Demo.full /\
  JsMap.size (_cacheMap Demo.full) <= _capacity Demo.full.
Proof.
  assert (H1 : 0 < scaledCharWidth Demo.fourCells) by reflexivity.
  assert (H2 : 0 < scaledCharHeight Demo.fourCells) by reflexivity.
  assert (H3 : reachable Demo.fourCells Demo.full) by apply atlasAfter_reachable.
  repeat (split; [assumption |]).
  exact (proj1 (cache_map_invariant Demo.host Demo.fourCells Demo.full H1 H2 H3)).
Defined.

(** On a new atlas with cells of 8 by 16 pixels (a grid of 128 by 64),
    slot 130 is the third cell of the second row. *)
Lemma toCoordinates_geometry_witness :
  0 < scaledCharWidth (_config (newDynamicCharAtlas Demo.ordinary)) /\
  0 < scaledCharHeight (_config (newDynamicCharAtlas Demo.ordinary)) /\
  0 <= cvWidth (_cacheCanvas (newDynamicCharAtlas Demo.ordinary)) /\
  0 <= cvHeight (_cacheCanvas (newDynamicCharAtlas Demo.ordinary)) /\
  _capacity (newDynamicCharAtlas Demo.ordinary) = 8192 /\
  _toCoordinates (newDynamicCharAtlas Demo.ordinary) 130 = (16, 16).
Proof.
  repeat (split; [first [reflexivity | discriminate] |]).
  refine (proj1 (toCoordinates_geometry Demo.host (newDynamicCharAtlas Demo.ordinary)
                   _ _ _ _ _ _ _) 130 _);
    first [reflexivity | discriminate | (split; [discriminate | reflexivity])].
Defined.


(** On four cells: a is admitted, b is admitted without evicting a, and
    a is then drawn again. *)
Lemma hit_draws_from_cache_witness :
  0 < scaledCharWidth Demo.fourCells /\
  0 < scaledCharHeight Demo.fourCells /\
  reachable Demo.fourCells (Demo.atlasAfter Demo.fourCells []) /\
  draw (Demo.atlasAfter Demo.fourCells []) (Demo.ctxAfter Demo.fourCells [])
       Demo.glyphA 0 0 =
    Normal (Demo.atlasAfter Demo.fourCells [Demo.callOf Demo.glyphA],
            Demo.ctxAfter Demo.fourCells [Demo.callOf Demo.glyphA], true) /\
  runsKeeping Demo.keyA
    (Demo.atlasAfter Demo.fourCells [Demo.callOf Demo.glyphA])
    (Demo.atlasAfter Demo.fourCells [Demo.callOf Demo.glyphA; Demo.callOf Demo.glyphB]) /\
  exists this3 ctx3,
    draw (Demo.atlasAfter Demo.fourCells
            [Demo.callOf Demo.glyphA; Demo.callOf Demo.glyphB])
         [] Demo.glyphA 0 0 = Normal (this3, ctx3, true) /\
    Demo.ctxAfter Demo.fourCells [Demo.callOf Demo.glyphA] = ctx3 /\
    rasterizations this3 = 2%nat.
Proof.
  assert (H1 : 0 < scaledCharWidth Demo.fourCells) by reflexivity.
  assert (H2 : 0 < scaledCharHeight Demo.fourCells) by reflexivity.
  assert (H3 : reachable Demo.fourCells (Demo.atlasAfter Demo.fourCells []))
    by apply atlasAfter_reachable.
  assert (H4 : draw (Demo.atlasAfter Demo.fourCells []) (Demo.ctxAfter Demo.fourCells [])
                    Demo.glyphA 0 0 =
               Normal (Demo.atlasAfter Demo.fourCells [Demo.callOf Demo.glyphA],
                       Demo.ctxAfter Demo.fourCells [Demo.callOf Demo.glyphA], true))
    by (apply (run_step Demo.fourCells [] (Demo.callOf Demo.glyphA) [] true);
        lazy; reflexivity).
  assert (H5 : runsKeeping Demo.keyA
                 (Demo.atlasAfter Demo.fourCells [Demo.callOf Demo.glyphA])
                 (Demo.atlasAfter Demo.fourCells
                    [Demo.callOf Demo.glyphA; Demo.callOf Demo.glyphB])).
  { eapply keep_draw; [apply keep_none | |].
    - apply (run_step Demo.fourCells [Demo.callOf Demo.glyphA]
               (Demo.callOf Demo.glyphB) [true] true).
      lazy. reflexivity.
    - lazy. discriminate. }
  repeat (split; [assumption |]).
  destruct (hit_draws_from_cache Demo.host Demo.fourCells _ _ Demo.glyphA 0 0 _ _ _
              H1 H2 H3 H4 H5) as (index & image & _ & Hctx1 & Hagain).
  destruct (Hagain [] 0 0) as (this3 & Hdraw & _ & _ & Hraster & _).
  exists this3. eexists. split; [exact Hdraw | split].
  - rewrite Hctx1. reflexivity.
  - rewrite Hraster. lazy. reflexivity.
Defined.

(** With a single cell the claim of C2 fails as stated: the atlas that
    holds a alone is full; a is drawn again (a hit: nothing is
    rasterized a second time); b is then admitted, and the key evicted
    is a itself, the key just hit. *)
Lemma hit_key_evicted_with_one_cell :
  reachable Demo.oneCell (Demo.atlasAfter Demo.oneCell [Demo.callOf Demo.glyphA]) /\
  JsMap.size (_cacheMap (Demo.atlasAfter Demo.oneCell [Demo.callOf Demo.glyphA]))
    = _capacity (Demo.atlasAfter Demo.oneCell [Demo.callOf Demo.glyphA]) /\
  JsMap.get Demo.keyA
    (_cacheMap (Demo.atlasAfter Demo.oneCell [Demo.callOf Demo.glyphA])) = Some 0 /\
  JsMap.get Demo.keyB
    (_cacheMap (Demo.atlasAfter Demo.oneCell [Demo.callOf Demo.glyphA])) = None /\
  _canCache Demo.glyphB = true /\
  rasterizable Demo.oneCell Demo.glyphB /\
  draw (Demo.atlasAfter Demo.oneCell [Demo.callOf Demo.glyphA])
       (Demo.ctxAfter Demo.oneCell [Demo.callOf Demo.glyphA])
       Demo.glyphA 0 0 =
    Normal (Demo.atlasAfter Demo.oneCell [Demo.callOf Demo.glyphA; Demo.callOf Demo.glyphA],
            Demo.ctxAfter Demo.oneCell [Demo.callOf Demo.glyphA; Demo.callOf Demo.glyphA],
            true) /\
  rasterizations
    (Demo.atlasAfter Demo.oneCell [Demo.callOf Demo.glyphA; Demo.callOf Demo.glyphA])
    = 1%nat /\
  draw (Demo.atlasAfter Demo.oneCell [Demo.callOf Demo.glyphA; Demo.callOf Demo.glyphA])
       (Demo.ctxAfter Demo.oneCell [Demo.callOf Demo.glyphA; Demo.callOf Demo.glyphA])
       Demo.glyphB 0 0 =
    Normal (Demo.atlasAfter Demo.oneCell
              [Demo.callOf Demo.glyphA; Demo.callOf Demo.glyphA; Demo.callOf Demo.glyphB],
            Demo.ctxAfter Demo.oneCell
              [Demo.callOf Demo.glyphA; Demo.callOf Demo.glyphA; Demo.callOf Demo.glyphB],
            true) /\
  JsMap.get Demo.keyA
    (_cacheMap (Demo.atlasAfter Demo.oneCell
                  [Demo.callOf Demo.glyphA; Demo.callOf Demo.glyphA;
                   Demo.callOf Demo.glyphB])) = None /\
  JsMap.get Demo.keyB
    (_cacheMap (Demo.atlasAfter Demo.oneCell
                  [Demo.callOf Demo.glyphA; Demo.callOf Demo.glyphA;
                   Demo.callOf Demo.glyphB])) = Some 0.
Proof.
  split; [apply atlasAfter_reachable |].
  split; [lazy; reflexivity |].
  split; [lazy; reflexivity |].
  split; [lazy; reflexivity |].
  split; [reflexivity |].
  split; [split; vm_compute; discriminate |].
  split.
  { apply (run_step Demo.oneCell [Demo.callOf Demo.glyphA]
             (Demo.callOf Demo.glyphA) [true] true).
    lazy. reflexivity. }
  split; [lazy; reflexivity |].
  split.
  { apply (run_step Demo.oneCell [Demo.callOf Demo.glyphA; Demo.callOf Demo.glyphA]
             (Demo.callOf Demo.glyphB) [true; true] true).
    lazy. reflexivity. }
  split; lazy; reflexivity.
Qed.

(** C9 fails on the code.  With a cell wider than the texture (1025 by
    16, both positive) the grid has no column, the capacity is 0, and
    the first [draw] of the glyph a on the new atlas takes the eviction
    branch with an empty cache map: [mapShift] returns [undefined] and
    [draw] throws a TypeError. *)
Theorem draw_throws_with_no_cell :
  0 < scaledCharWidth Demo.noCell /\
  0 < scaledCharHeight Demo.noCell /\
  _capacity (newDynamicCharAtlas Demo.noCell) = 0 /\
  _canCache Demo.glyphA = true /\
  rasterizable Demo.noCell Demo.glyphA /\
  fst (mapShift (_cacheMap (newDynamicCharAtlas Demo.noCell))) = None /\
  draw (newDynamicCharAtlas Demo.noCell) [] Demo.glyphA 0 0 = Throw TypeError.
Proof.
  repeat (split; [first [reflexivity | (split; vm_compute; discriminate)] |]).
  apply draw_throws_without_slots; [discriminate | reflexivity].
Qed.

(** The claim of C10 fails as stated: no host and no configuration give
    an atlas surface of another size than 1024 by 1024. *)
Lemma texture_size_not_configurable :
  ~ exists (host : Host) (config : ICharAtlasConfig host),
      cvWidth (_cacheCanvas (newDynamicCharAtlas config)) <> 1024 \/
      cvHeight (_cacheCanvas (newDynamicCharAtlas config)) <> 1024.
Proof.
  intros (host & config & [H | H]); apply H; reflexivity.
Qed.

(* ================================================================== *)
(** * Further properties of the cache *)

Section CacheFacts.
Variable host : Host.
Implicit Types (this : DynamicCharAtlas host) (glyph : IGlyphIdentifier) (ctx : Ctx).

(* ------------------------------------------------------------------ *)
(** ** The cache holds the most recently used keys *)

Lemma lastN_all (A : Type) (n : nat) (l : list A) :
  (length l <= n)%nat -> lastN n l = l.
Proof.
  intros H. unfold lastN. replace (length l - n)%nat with 0%nat by lia. reflexivity.
Qed.

Lemma lastN_app (A : Type) (n : nat) (p l : list A) :
  length l = n -> lastN n (p ++ l) = l.
Proof.
  intros H. unfold lastN. rewrite length_app.
  replace (length p + length l - n)%nat with (length p + 0)%nat by lia.
  rewrite skipn_app, Nat.add_0_r, skipn_all.
  replace (length p - length p)%nat with 0%nat by lia. reflexivity.
Qed.

Lemma keys_delete (m : JsMap.t Z) k :
  JsMap.keys (JsMap.delete k m) = remove eq_dec k (JsMap.keys m).
Proof.
  unfold JsMap.keys, JsMap.delete. induction m as [| e r IH]; simpl; [reflexivity |].
  unfold JsMap.hasKey at 1.
  destruct (eq_dec k (fst e)) as [-> | Hne].
  - rewrite jsstring_eqb_refl. simpl. exact IH.
  - assert (Hx : eqb (fst e) k = false) by (apply jsstring_eqb_neq; congruence).
    rewrite Hx. simpl. now rewrite IH.
Qed.

Lemma NoDup_app_disjoint (A : Type) (l l' : list A) (a : A) :
  NoDup (l ++ l') -> In a l -> In a l' -> False.
Proof.
  induction l as [| x r IH]; simpl; intros Hnd Hl Hl'; [contradiction |].
  inversion Hnd as [| ? ? Hx Hnd']; subst.
  destruct Hl as [-> | Hl]; [| eauto].
  apply Hx. apply in_or_app. now right.
Qed.

Lemma lruInvariant_new_nonneg (config : ICharAtlasConfig host) :
  0 <= _capacity (newDynamicCharAtlas config) ->
  lruInvariant (newDynamicCharAtlas config).
Proof.
  intros Hcap. unfold lruInvariant.
  repeat split; try constructor; try contradiction.
  exact Hcap.
Qed.

(** Every run of rasterizable glyphs from a new atlas with at least one
    slot completes; the keys it has accessed, from the least to the most
    recent, are some evicted keys [gone] followed by the keys of the
    cache map, and keys are gone only when the map is full. *)
Lemma lru_run (config : ICharAtlasConfig host) ctx calls :
  1 <= _capacity (newDynamicCharAtlas config) ->
  Forall (fun c => _canCache (callGlyph c) = true ->
                   rasterizable config (callGlyph c)) calls ->
  exists this' ctx' gone,
    drawAll (newDynamicCharAtlas config) ctx calls =
      Normal (this', ctx', map (fun c => _canCache (callGlyph c)) calls) /\
    builtFor config this' /\ lruInvariant this' /\
    byLastAccess (accessedKeys calls) = gone ++ JsMap.keys (_cacheMap this') /\
    (gone = [] \/ JsMap.size (_cacheMap this') = _capacity this').
Proof.
  intros Hcap.
  induction calls as [| c calls IH] using rev_ind; intros Hwf.
  - exists (newDynamicCharAtlas config), ctx, []. simpl.
    split; [reflexivity | split; [apply builtFor_new | split]].
    + apply lruInvariant_new_nonneg. lia.
    + auto.
  - apply Forall_app in Hwf. destruct Hwf as [Hwf Hc].
    apply Forall_inv in Hc.
    destruct (IH Hwf) as (this1 & ctx1 & gone & Hrun & Hb & Hinv & Hacc & Hgone).
    rewrite accessedKeys_snoc, map_app. simpl.
    set (ks := accessedKeys calls) in *.
    set (k := getGlyphCacheKey (callGlyph c)) in *.
    assert (Hnd : NoDup (gone ++ JsMap.keys (_cacheMap this1)))
      by (rewrite <- Hacc; apply NoDup_nodup).
    assert (Hcfg : _config this1 = config) by apply Hb.
    destruct (_canCache (callGlyph c)) eqn:Hcan.
    + unfold byLastAccess in *. rewrite nodup_snoc, Hacc, remove_app.
      destruct (JsMap.get k (_cacheMap this1)) as [index |] eqn:Hget.
      * (* a hit *)
        pose proof (draw_hit host this1 ctx1 (callGlyph c) (callX c) (callY c) _ Hget)
          as Hdraw. cbv zeta in Hdraw. fold k in Hdraw.
        assert (Hin : In k (JsMap.keys (_cacheMap this1))).
        { apply get_Some_In in Hget. change k with (fst (k, index)). now apply in_map. }
        assert (Hout : ~ In k gone).
        { intros Hg. exact (NoDup_app_disjoint _ _ _ _ Hnd Hg Hin). }
        eexists. eexists. exists gone.
        split; [exact (drawAll_snoc host _ _ _ _ _ _ _ _ _ _ Hrun Hdraw) |].
        split; [eapply builtFor_draw; eauto; apply Hinv |].
        split; [eapply lruInvariant_draw; eauto |].
        split.
        -- simpl. rewrite keys_app, keys_delete. simpl.
           rewrite (notin_remove _ gone) by exact Hout. now rewrite app_assoc.
        -- destruct Hgone as [-> | Hfull]; [now left | right].
           simpl. rewrite <- Hfull. unfold JsMap.size. f_equal.
           apply Permutation_length.
           apply delete_reinsert_Permutation; [apply Hinv | exact Hget].
      * (* an admission *)
        assert (Hnotin : ~ In k (JsMap.keys (_cacheMap this1))) by now apply get_None.
        rewrite (notin_remove _ (JsMap.keys (_cacheMap this1))) by exact Hnotin.
        destruct (rasterizable_colors host _ _ (Hc eq_refl)) as (fill & ink & Hbg & Hfg).
        rewrite <- Hcfg in Hbg, Hfg.
        destruct (Z_lt_dec (JsMap.size (_cacheMap this1)) (_capacity this1))
          as [Hfree | Hfull].
        -- destruct Hgone as [-> | Heq]; [| lia].
           destruct (draw_admit_free host this1 ctx1 (callGlyph c) (callX c) (callY c)
                       _ _ Hget Hcan Hfree Hbg Hfg) as (this2 & H2 & Hdraw).
           cbv zeta in Hdraw. fold k in Hdraw.
           eexists. eexists. exists [].
           split; [exact (drawAll_snoc host _ _ _ _ _ _ _ _ _ _ Hrun Hdraw) |].
           split; [eapply builtFor_draw; eauto; apply Hinv |].
           split; [eapply lruInvariant_draw; eauto |].
           split; [| now left].
           simpl. now rewrite keys_app.
        -- assert (Hsize : JsMap.size (_cacheMap this1) = _capacity this1)
             by (destruct Hinv as (_ & _ & _ & Hs); lia).
           assert (Hcase : _cacheMap this1 = [] \/
                           exists e rest, _cacheMap this1 = e :: rest)
             by (destruct (_cacheMap this1) as [| e rest]; eauto).
           destruct Hcase as [Hm | (e & rest & Hm)].
           { exfalso. rewrite (builtFor_capacity host _ _ Hb), Hm in Hsize.
             change (JsMap.size (@nil (GlyphCacheKey * Z))) with 0 in Hsize. lia. }
           destruct (draw_admit_evict host this1 ctx1 (callGlyph c) (callX c) (callY c)
                       _ _ _ _ Hget Hcan Hfull Hm (proj1 Hinv) Hbg Hfg)
             as (this2 & H2 & Hdraw).
           cbv zeta in Hdraw. fold k in Hdraw.
           eexists. eexists. exists (remove eq_dec k gone ++ [fst e]).
           split; [exact (drawAll_snoc host _ _ _ _ _ _ _ _ _ _ Hrun Hdraw) |].
           split; [eapply builtFor_draw; eauto; apply Hinv |].
           split; [eapply lruInvariant_draw; eauto |].
           split.
           ++ simpl. rewrite keys_app, Hm. simpl. rewrite <- !app_assoc. reflexivity.
           ++ right.
              assert (Hb' : builtFor config
                              (withCacheMap this2 (rest ++ [(k, snd e)])))
                by (eapply builtFor_draw; eauto; apply Hinv).
              rewrite (builtFor_capacity host _ _ Hb'),
                <- (builtFor_capacity host _ _ Hb), <- Hsize, Hm.
              simpl. rewrite size_app.
              change (JsMap.size [(k, snd e)]) with 1.
              unfold JsMap.size. simpl length. lia.
    + (* a refusal *)
      rewrite app_nil_r.
      assert (Hget : JsMap.get k (_cacheMap this1) = None).
      { apply get_None. intros Hin.
        assert (Hk : In k ks).
        { apply (nodup_In eq_dec). fold (byLastAccess ks). rewrite Hacc.
          apply in_or_app. now right. }
        apply accessedKeys_cacheable in Hk. congruence. }
      pose proof (draw_reject host this1 ctx1 (callGlyph c) (callX c) (callY c) Hget Hcan)
        as Hdraw.
      exists this1, ctx1, gone.
      split; [exact (drawAll_snoc host _ _ _ _ _ _ _ _ _ _ Hrun Hdraw) |].
      auto.
Qed.

(** X1.  Whatever [draw] calls were made on a new atlas with at least
    one slot (glyphs whose colours exist), the run completes and the
    cache map holds exactly the most recently used cacheable keys, as
    many as fit ([_capacity] of them at most), from the least to the most
    recently used: the eviction policy is LRU. *)
Theorem lru_holds_most_recent (config : ICharAtlasConfig host) ctx calls :
  1 <= _capacity (newDynamicCharAtlas config) ->
  Forall (fun c => _canCache (callGlyph c) = true ->
                   rasterizable config (callGlyph c)) calls ->
  exists this' ctx',
    drawAll (newDynamicCharAtlas config) ctx calls =
      Normal (this', ctx', map (fun c => _canCache (callGlyph c)) calls) /\
    JsMap.keys (_cacheMap this') =
      lastN (Z.to_nat (_capacity (newDynamicCharAtlas config)))
            (byLastAccess (accessedKeys calls)).
Proof.
  intros Hcap Hwf.
  destruct (lru_run config ctx calls Hcap Hwf)
    as (this' & ctx' & gone & Hrun & Hb & Hinv & Hacc & Hgone).
  exists this', ctx'. split; [exact Hrun |].
  rewrite Hacc, <- (builtFor_capacity host _ _ Hb).
  assert (Hlen : Z.of_nat (length (JsMap.keys (_cacheMap this')))
                 = JsMap.size (_cacheMap this'))
    by (unfold JsMap.keys, JsMap.size; now rewrite length_map).
  destruct Hgone as [-> | Hfull].
  - simpl. symmetry. apply lastN_all.
    destruct Hinv as (_ & _ & _ & Hs). lia.
  - symmetry. apply lastN_app. lia.
Qed.

(* ------------------------------------------------------------------ *)
(** ** What a call of [draw] does to the cache map *)

Lemma keys_set_incl (m : JsMap.t Z) k v k' :
  In k' (JsMap.keys (JsMap.set k v m)) -> k' = k \/ In k' (JsMap.keys m).
Proof.
  unfold JsMap.keys. induction m as [| e r IH]; simpl.
  - intros [<- | []]. now left.
  - destruct (JsMap.hasKey k e); simpl.
    + intros [<- | H]; auto.
    + intros [<- | H]; [auto |]. destruct (IH H); auto.
Qed.

Lemma get_delete_None (m : JsMap.t Z) k k' :
  JsMap.get k m = None -> JsMap.get k (JsMap.delete k' m) = None.
Proof.
  intros H. apply get_None. apply get_None in H. rewrite keys_delete.
  intros Hin. apply in_remove in Hin. tauto.
Qed.

Lemma drawToCache_keeps_map this glyph index this' :
  _drawToCache this glyph index = Normal this' ->
  _cacheMap this' = _cacheMap this /\ _config this' = _config this /\
  _capacity this' = _capacity this /\ _width this' = _width this /\
  rasterizations this' = (rasterizations this + 1)%nat.
Proof.
  destruct (backgroundColorOf (_config this) glyph) as [fill |] eqn:Hbg;
    [| unfold _drawToCache; rewrite Hbg; discriminate].
  destruct (foregroundColorOf (_config this) glyph) as [ink |] eqn:Hfg;
    [| unfold _drawToCache; rewrite Hbg, Hfg; discriminate].
  rewrite (drawToCache_calls host this glyph index fill ink Hbg Hfg).
  intros [= <-]. simpl. repeat split.
  unfold rasterizations, withCanvases, rasterCalls.
  cbn [_tmpCtx]. rewrite filter_app, length_app.
  now destruct (bold glyph), (dim glyph).
Qed.

(** The shape of the cache map after a call of [draw] that returns
    [true]: the key of the glyph is the last entry. *)
Lemma draw_true_shape this ctx glyph x y this' ctx' :
  draw this ctx glyph x y = Normal (this', ctx', true) ->
  exists older index,
    _cacheMap this' = older ++ [(getGlyphCacheKey glyph, index)] /\
    JsMap.get (getGlyphCacheKey glyph) older = None /\
    incl (JsMap.keys older) (JsMap.keys (_cacheMap this)) /\
    (JsMap.get (getGlyphCacheKey glyph) (_cacheMap this) <> None \/
     _canCache glyph = true) /\
    _config this' = _config this /\
    ctx' = _drawFromCache this' ctx index x y.
Proof.
  set (k := getGlyphCacheKey glyph).
  assert (Hdel : forall k', incl (JsMap.keys (JsMap.delete k' (_cacheMap this)))
                                 (JsMap.keys (_cacheMap this))).
  { intros k' a Ha. rewrite keys_delete in Ha. apply in_remove in Ha. tauto. }
  destruct (JsMap.get k (_cacheMap this)) as [index |] eqn:Hget.
  - pose proof (draw_hit host this ctx glyph x y _ Hget) as Hhit. cbv zeta in Hhit.
    fold k in Hhit. rewrite Hhit. intros [= <- <-].
    exists (JsMap.delete k (_cacheMap this)), index. simpl.
    repeat split; auto using get_delete_same. left. discriminate.
  - unfold draw. fold k. rewrite Hget.
    destruct (_canCache glyph) eqn:Hcan; [| discriminate].
    destruct (JsMap.size (_cacheMap this) <? _capacity this); simpl.
    + destruct (_drawToCache this glyph (JsMap.size (_cacheMap this)))
        as [this2 |] eqn:H2; simpl; [| discriminate].
      destruct (drawToCache_keeps_map _ _ _ _ H2) as (Hm & Hc & _).
      intros [= <- <-]. rewrite Hm.
      exists (_cacheMap this), (JsMap.size (_cacheMap this)). simpl.
      rewrite set_absent by assumption.
      repeat split; auto using incl_refl.
    + unfold mapShift. destruct (JsMap.firstEntry (_cacheMap this)) as [e |];
        simpl; [| discriminate].
      destruct (_drawToCache (withCacheMap this (JsMap.delete (fst e) (_cacheMap this)))
                  glyph (snd e)) as [this2 |] eqn:H2; simpl; [| discriminate].
      destruct (drawToCache_keeps_map _ _ _ _ H2) as (Hm & Hc & _).
      intros [= <- <-]. rewrite Hm. simpl.
      exists (JsMap.delete (fst e) (_cacheMap this)), (snd e). simpl.
      rewrite set_absent by (now apply get_delete_None).
      repeat split; auto using get_delete_None.
Qed.

(** X2.  After a call of [draw] that returns [true], the key of the
    glyph is resident and is the most recently used entry of the cache
    map (the last one, and the only one with that key), and the
    destination received exactly one more [drawImage]: the cell of that
    slot, at the place asked for, in the size of a cell. *)
Theorem draw_true_most_recent this ctx glyph x y this' ctx' :
  draw this ctx glyph x y = Normal (this', ctx', true) ->
  exists older index,
    _cacheMap this' = older ++ [(getGlyphCacheKey glyph, index)] /\
    JsMap.get (getGlyphCacheKey glyph) older = None /\
    JsMap.get (getGlyphCacheKey glyph) (_cacheMap this') = Some index /\
    ctx' = ctx ++ [DrawImage (cellImage this' index) x y
                     (scaledCharWidth (_config this))
                     (scaledCharHeight (_config this))].
Proof.
  intros Hdraw.
  destruct (draw_true_shape _ _ _ _ _ _ _ Hdraw)
    as (older & index & Hm & Hold & _ & _ & Hcfg & Hctx).
  exists older, index. repeat split; try assumption.
  - rewrite Hm, get_app, Hold, get_singleton. now rewrite jsstring_eqb_refl.
  - rewrite Hctx, drawFromCache_blit, Hcfg. reflexivity.
Qed.

(** Every key of the cache map of a reachable atlas is the key of a
    cacheable glyph. *)
Lemma resident_keys_cacheable (config : ICharAtlasConfig host) this :
  reachable config this ->
  forall glyph,
    In (getGlyphCacheKey glyph) (JsMap.keys (_cacheMap this)) ->
    _canCache glyph = true.
Proof.
  induction 1 as [| this ctx g x y this' ctx' hit Hreach IH Hdraw]; intros glyph Hin.
  - contradiction.
  - destruct hit.
    + destruct (draw_true_shape _ _ _ _ _ _ _ Hdraw)
        as (older & index & Hm & _ & Hincl & Hwhy & _).
      rewrite Hm, keys_app in Hin. apply in_app_or in Hin.
      destruct Hin as [Hin | [Hk | []]]; [apply IH, Hincl, Hin |].
      simpl in Hk. rewrite <- (canCache_key _ _ Hk).
      destruct Hwhy as [Hres | Hcan]; [| exact Hcan].
      apply IH. apply Decidable.not_not.
      * destruct (in_dec eq_dec (getGlyphCacheKey g) (JsMap.keys (_cacheMap this)));
          [now left | now right].
      * intros Hn. apply Hres. now apply get_None.
    + apply draw_false_inv in Hdraw. destruct Hdraw as (_ & _ & -> & _). now apply IH.
Qed.

(** X3.  A glyph that [_canCache] refuses is never resident: on every
    reachable atlas, [draw] of such a glyph returns [false] and leaves
    the atlas and the destination as they were. *)
Theorem uncacheable_never_cached (config : ICharAtlasConfig host) this ctx glyph x y :
  reachable config this ->
  _canCache glyph = false ->
  JsMap.get (getGlyphCacheKey glyph) (_cacheMap this) = None /\
  draw this ctx glyph x y = Normal (this, ctx, false).
Proof.
  intros Hreach Hcan.
  assert (Hget : JsMap.get (getGlyphCacheKey glyph) (_cacheMap this) = None).
  { apply get_None. intros Hin.
    apply (resident_keys_cacheable config this Hreach) in Hin. congruence. }
  split; [exact Hget | now apply draw_reject].
Qed.

(** X4.  A completed call of [draw] rasterizes exactly once when it
    admits the glyph (key absent, glyph cacheable) and not at all
    otherwise: the number of [fillText] calls grows by one on a miss
    and stays on a hit or a refusal. *)
Theorem draw_counts_rasterizations this ctx glyph x y this' ctx' hit :
  draw this ctx glyph x y = Normal (this', ctx', hit) ->
  rasterizations this' =
  (rasterizations this +
   match JsMap.get (getGlyphCacheKey glyph) (_cacheMap this) with
   | Some _ => 0
   | None => if _canCache glyph then 1 else 0
   end)%nat.
Proof.
  unfold draw.
  destruct (JsMap.get (getGlyphCacheKey glyph) (_cacheMap this)) as [index |].
  - intros [= <- _ _]. unfold rasterizations. simpl. lia.
  - destruct (_canCache glyph); [| intros [= <- _ _]; lia].
    assert (Hstep : forall base index this2,
               _drawToCache (withCacheMap this base) glyph index = Normal this2 ->
               rasterizations this2 = (rasterizations this + 1)%nat).
    { intros base index this2 H2.
      destruct (drawToCache_keeps_map _ _ _ _ H2) as (_ & _ & _ & _ & Hone).
      exact Hone. }
    destruct (JsMap.size (_cacheMap this) <? _capacity this); simpl.
    + destruct (_drawToCache this glyph (JsMap.size (_cacheMap this)))
        as [this2 |] eqn:H2; simpl; [| discriminate].
      intros [= <- _ _].
      exact (Hstep (_cacheMap this) _ _ H2).
    + unfold mapShift. destruct (JsMap.firstEntry (_cacheMap this)) as [e |];
        simpl; [| discriminate].
      destruct (_drawToCache (withCacheMap this (JsMap.delete (fst e) (_cacheMap this)))
                  glyph (snd e)) as [this2 |] eqn:H2; simpl; [| discriminate].
      intros [= <- _ _]. exact (Hstep _ _ _ H2).
Qed.

(** X5.  An atlas without slots (a cell wider or taller than the
    texture) never caches anything: every atlas reachable from it is the
    new atlas itself, on which [draw] throws for every cacheable glyph
    and returns [false] for every other glyph. *)
Theorem no_slot_nothing_cached (config : ICharAtlasConfig host) this :
  _capacity (newDynamicCharAtlas config) <= 0 ->
  reachable config this ->
  this = newDynamicCharAtlas config /\
  forall ctx glyph x y,
    draw this ctx glyph x y =
    if _canCache glyph then Throw TypeError else Normal (this, ctx, false).
Proof.
  intros Hcap.
  assert (Hnew : forall ctx glyph x y,
             draw (newDynamicCharAtlas config) ctx glyph x y =
             if _canCache glyph then Throw TypeError
             else Normal (newDynamicCharAtlas config, ctx, false)).
  { intros ctx glyph x y. destruct (_canCache glyph) eqn:Hcan.
    - apply draw_throw_empty; [assumption | | reflexivity].
      change (JsMap.size (_cacheMap (newDynamicCharAtlas config))) with 0. lia.
    - now apply draw_reject. }
  intros Hreach.
  assert (Heq : this = newDynamicCharAtlas config).
  { induction Hreach as [| this ctx glyph x y this' ctx' hit _ IH Hdraw]; [reflexivity |].
    subst this. rewrite Hnew in Hdraw.
    destruct (_canCache glyph); [discriminate | now injection Hdraw as <- _ _]. }
  split; [exact Heq |]. subst this. exact Hnew.
Qed.

(* ------------------------------------------------------------------ *)
(** ** Slots in use *)

(** X6.  As long as no call has thrown: in every atlas reached from a
    new one by calls of [draw] that all completed (positive cell
    dimensions) the slots in use are exactly the numbers below the size
    of the cache map.  Slots are handed out in order and a completed
    eviction reuses the slot it frees, so the atlas has no hole.  The
    object left by a call that throws is not covered: such a call can
    leave a hole. *)
Theorem slots_are_contiguous (config : ICharAtlasConfig host) this :
  0 < scaledCharWidth config -> 0 < scaledCharHeight config ->
  reachable config this ->
  forall v,
    (exists k, JsMap.get k (_cacheMap this) = Some v) <->
    0 <= v < JsMap.size (_cacheMap this).
Proof.
  intros Hcw Hch Hreach v.
  destruct (reachable_invariant host _ _ Hcw Hch Hreach) as [_ Hinv].
  destruct Hinv as (Hk & Hv & Hb & Hs).
  split.
  - intros (k & Hget). apply Hb. apply get_Some_In in Hget.
    change v with (snd (k, v)). now apply in_map.
  - intros Hrange.
    assert (Hperm : Permutation (JsMap.values (_cacheMap this))
                                (zrange (JsMap.size (_cacheMap this)))).
    { apply NoDup_Permutation_bis; [exact Hv | |].
      - rewrite zrange_length. unfold JsMap.values, JsMap.size.
        rewrite length_map. lia.
      - intros a Ha. apply zrange_In. now apply Hb. }
    assert (Hin : In v (JsMap.values (_cacheMap this))).
    { apply (Permutation_in _ (Permutation_sym Hperm)). now apply zrange_In. }
    unfold JsMap.values in Hin. apply in_map_iff in Hin.
    destruct Hin as ([k v'] & Heq & Hin). simpl in Heq. subst v'.
    exists k. now apply In_get_Some.
Qed.

(** X7.  A completed call of [draw] on a reachable atlas never shrinks
    the cache map: its size stays or grows by one, the capacity is
    unchanged, and a full cache stays full. *)
Theorem cache_never_shrinks (config : ICharAtlasConfig host)
        this ctx glyph x y this' ctx' hit :
  0 < scaledCharWidth config -> 0 < scaledCharHeight config ->
  reachable config this ->
  draw this ctx glyph x y = Normal (this', ctx', hit) ->
  _capacity this' = _capacity this /\
  JsMap.size (_cacheMap this) <= JsMap.size (_cacheMap this')
    <= JsMap.size (_cacheMap this) + 1 /\
  (JsMap.size (_cacheMap this) = _capacity this ->
   JsMap.size (_cacheMap this') = _capacity this).
Proof.
  intros Hcw Hch Hreach Hdraw.
  destruct (reachable_invariant host _ _ Hcw Hch Hreach) as [_ Hinv].
  destruct (draw_Normal_inv host _ _ _ _ _ _ _ _ (proj1 Hinv) Hdraw)
    as [(index & Hget & _ & -> & _) | [(_ & _ & _ & -> & _) |
        (index & base & img & ops & Hget & _ & _ & Hslot & _ & _ & _ & -> & _)]];
    simpl.
  - assert (Hsame : JsMap.size (JsMap.delete (getGlyphCacheKey glyph) (_cacheMap this)
                                  ++ [(getGlyphCacheKey glyph, index)])
                    = JsMap.size (_cacheMap this)).
    { unfold JsMap.size. f_equal. apply Permutation_length.
      apply delete_reinsert_Permutation; [apply Hinv | exact Hget]. }
    rewrite Hsame. repeat split; auto; lia.
  - repeat split; auto; lia.
  - rewrite size_app. change (JsMap.size [(getGlyphCacheKey glyph, index)]) with 1.
    destruct Hslot as [(Hfree & _ & ->) | (Hfull & e & Hm & _)].
    + repeat split; lia.
    + rewrite Hm. unfold JsMap.size. simpl length.
      repeat split; lia.
Qed.

(** X10.  [mapShift] on a map (distinct keys): an empty map gives
    [undefined] and stays empty; otherwise the oldest entry is returned
    and removed, and every other entry keeps its value and its place. *)
Theorem mapShift_oldest (V : Type) (m : JsMap.t V) :
  NoDup (JsMap.keys m) ->
  (m = [] -> mapShift m = (None, [])) /\
  (forall e rest, m = e :: rest ->
     mapShift m = (Some e, rest) /\
     JsMap.size (snd (mapShift m)) = JsMap.size m - 1 /\
     JsMap.get (fst e) (snd (mapShift m)) = None /\
     forall k, k <> fst e -> JsMap.get k (snd (mapShift m)) = JsMap.get k m).
Proof.
  intros Hnd. split; [intros ->; reflexivity |].
  intros e rest ->.
  assert (Hshift : mapShift (e :: rest) = (Some e, rest)).
  { unfold mapShift. simpl JsMap.firstEntry. cbv iota.
    now rewrite delete_head. }
  rewrite Hshift. cbn [snd]. repeat split.
  - unfold JsMap.size. simpl length. lia.
  - apply get_None. now inversion Hnd.
  - intros k Hne. unfold JsMap.get at 2. simpl.
    assert (Hk : JsMap.hasKey k e = false) by (apply hasKey_false; congruence).
    now rewrite Hk.
Qed.

(* ------------------------------------------------------------------ *)
(** ** Cells and what is copied from them *)

Lemma cell_within_texture this s :
  gridOf this -> 0 <= s < _capacity this ->
  0 <= fst (_toCoordinates this s) /\
  fst (_toCoordinates this s) + scaledCharWidth (_config this)
    <= cvWidth (_cacheCanvas this) /\
  0 <= snd (_toCoordinates this s) /\
  snd (_toCoordinates this s) + scaledCharHeight (_config this)
    <= cvHeight (_cacheCanvas this).
Proof.
  intros Hg Hs.
  destruct (slot_in_grid host this s Hg Hs) as (Hcs & Hc & Hr & _).
  destruct Hg as (Hcw & Hch & _ & _ & Hgw & Hgh & _).
  pose proof (grid_fits (cvWidth (_cacheCanvas this)) _ Hcw) as HfitW.
  pose proof (grid_fits (cvHeight (_cacheCanvas this)) _ Hch) as HfitH.
  rewrite <- Hgw in HfitW. rewrite <- Hgh in HfitH.
  rewrite Hcs. simpl. nia.
Qed.

(** X9.  The capacity is exact: on an atlas whose grid has columns, the
    cell [_toCoordinates] gives to a slot [s >= 0] lies within the
    texture exactly when [s] is below [_capacity]. *)
Theorem cell_fits_iff_slot this s :
  gridOf this -> 0 < _width this -> 0 <= s ->
  (fst (_toCoordinates this s) + scaledCharWidth (_config this)
     <= cvWidth (_cacheCanvas this) /\
   snd (_toCoordinates this s) + scaledCharHeight (_config this)
     <= cvHeight (_cacheCanvas this))
  <-> s < _capacity this.
Proof.
  intros Hg Hw Hs. split.
  - intros [_ Hy].
    destruct (Z_lt_dec s (_capacity this)) as [Hlt | Hge]; [exact Hlt | exfalso].
    destruct Hg as (Hcw & Hch & _ & HH & _ & Hgh & Hcap).
    assert (Hrow : _height this <= s / _width this).
    { apply Z.div_le_lower_bound; lia. }
    pose proof (Z.mul_succ_div_gt (cvHeight (_cacheCanvas this)) _ Hch) as Htop.
    rewrite <- Hgh in Htop. unfold _toCoordinates in Hy. simpl in Hy. nia.
  - intros Hlt.
    destruct (cell_within_texture this s Hg (conj Hs Hlt)) as (_ & Hx & _ & Hy).
    auto.
Qed.

Lemma concat_map_rows (A B : Type) (f : A -> B) (g : Z -> list A) (l : list Z) :
  map f (flat_map g l) = flat_map (fun j => map f (g j)) l.
Proof.
  induction l as [| j r IH]; simpl; [reflexivity |].
  now rewrite map_app, IH.
Qed.

(** Reading back the cell just written gives the image written. *)
Lemma cell_roundtrip cv pix c dx dy w h :
  0 <= dx -> dx + w <= cvWidth cv -> 0 <= dy -> dy + h <= cvHeight cv ->
  readRect (pixelAt (putImageData cv (clearColor (readRect pix 0 0 w h) c) dx dy))
           dx dy w h
  = clearColor (readRect pix 0 0 w h) c.
Proof.
  intros Hx Hxw Hy Hyh. unfold clearColor at 2. unfold readRect at 1 3. simpl.
  f_equal. rewrite concat_map_rows.
  rewrite !flat_map_concat_map. f_equal.
  apply map_ext_in. intros j Hj. rewrite map_map. apply map_ext_in. intros i Hi.
  apply zrange_In in Hi, Hj.
  unfold pixelAt, putImageData. simpl.
  assert (H1 : inRect 0 0 (cvWidth cv) (cvHeight cv) (dx + i) (dy + j) = true)
    by (apply inRect_true; lia).
  assert (H2 : inRect dx dy w h (dx + i) (dy + j) = true)
    by (apply inRect_true; lia).
  rewrite H1, H2. simpl.
  replace (dx + i - dx) with i by lia. replace (dy + j - dy) with j by lia.
  rewrite imagePixel_clearColor, imagePixel_readRect by lia. reflexivity.
Qed.

(** X8.  On a miss that admits the glyph, what the destination receives
    is the glyph as just rasterized: the scratch bitmap after this
    call's drawing, with the fill colour cleared, at the place asked
    for and in the size of a cell. *)
Theorem admission_blits_rasterized_glyph (config : ICharAtlasConfig host)
        this ctx glyph x y this' ctx' hit fill :
  0 < scaledCharWidth config -> 0 < scaledCharHeight config ->
  reachable config this ->
  JsMap.get (getGlyphCacheKey glyph) (_cacheMap this) = None ->
  _canCache glyph = true ->
  backgroundColorOf config glyph = Some fill ->
  draw this ctx glyph x y = Normal (this', ctx', hit) ->
  hit = true /\
  ctx' = ctx ++ [DrawImage
                   (clearColor
                      (getImageData (_tmpCanvas this) (_tmpCtx this') 0 0
                         (scaledCharWidth config) (scaledCharHeight config))
                      fill)
                   x y (scaledCharWidth config) (scaledCharHeight config)].
Proof.
  intros Hcw Hch Hreach Hget Hcan Hbg Hdraw.
  destruct (reachable_invariant host _ _ Hcw Hch Hreach) as [Hb Hinv].
  pose proof (builtFor_gridOf host _ _ Hcw Hch Hb) as Hgrid.
  assert (Hcfg : _config this = config) by apply Hb.
  rewrite <- Hcfg in *.
  destruct (draw_Normal_inv host _ _ _ _ _ _ _ _ (proj1 Hinv) Hdraw)
    as [(index & Hget' & _) | [(_ & Hcan' & _) |
        (_ & _ & _ & _ & _ & _ & Hhit & _ & _ & _ & Hr & _)]];
    [congruence | congruence |].
  destruct (rasterizable_colors host _ _ Hr) as (fill' & ink & Hbg' & Hfg).
  assert (fill' = fill) by congruence. subst fill'.
  split; [exact Hhit |].
  assert (Hblit : forall base index,
             0 <= index < _capacity this ->
             _drawFromCache
               (withCacheMap
                  (withCanvases (withCacheMap this base)
                     (putImageData (_cacheCanvas this)
                        (clearColor
                           (getImageData (_tmpCanvas this)
                              (_tmpCtx this ++ rasterCalls (_config this) glyph fill ink)
                              0 0 (scaledCharWidth (_config this))
                              (scaledCharHeight (_config this)))
                           fill)
                        (fst (_toCoordinates this index))
                        (snd (_toCoordinates this index)))
                     (_tmpCtx this ++ rasterCalls (_config this) glyph fill ink))
                  (base ++ [(getGlyphCacheKey glyph, index)]))
               ctx index x y
             = ctx ++ [DrawImage
                         (clearColor
                            (getImageData (_tmpCanvas this)
                               (_tmpCtx this ++ rasterCalls (_config this) glyph fill ink)
                               0 0 (scaledCharWidth (_config this))
                               (scaledCharHeight (_config this)))
                            fill)
                         x y (scaledCharWidth (_config this))
                         (scaledCharHeight (_config this))]).
  { intros base index Hidx. rewrite drawFromCache_blit. unfold cellImage. simpl.
    destruct (cell_within_texture this index Hgrid Hidx) as (Hx0 & Hx1 & Hy0 & Hy1).
    unfold getImageData.
    change (Z.rem index (_width this) * scaledCharWidth (_config this))
      with (fst (_toCoordinates this index)).
    change (index / _width this * scaledCharHeight (_config this))
      with (snd (_toCoordinates this index)).
    rewrite cell_roundtrip by assumption. reflexivity. }
  destruct (Z_lt_dec (JsMap.size (_cacheMap this)) (_capacity this)) as [Hfree | Hfull].
  - destruct (draw_admit_free host this ctx glyph x y _ _ Hget Hcan Hfree Hbg Hfg)
      as (this2 & H2 & Heq).
    rewrite (drawToCache_calls host this glyph _ _ _ Hbg Hfg) in H2. injection H2 as <-.
    cbv zeta in Heq. rewrite Heq in Hdraw. injection Hdraw as <- <- _.
    simpl _tmpCtx.
    apply (Hblit (_cacheMap this) (JsMap.size (_cacheMap this))).
    pose proof (size_nonneg _ (_cacheMap this)). lia.
  - assert (Hcase : _cacheMap this = [] \/ exists e rest, _cacheMap this = e :: rest)
      by (destruct (_cacheMap this) as [| e rest]; eauto).
    destruct Hcase as [Hm | (e & rest & Hm)].
    { rewrite (draw_throw_empty host this ctx glyph x y Hcan Hfull Hm) in Hdraw.
      discriminate. }
    destruct (draw_admit_evict host this ctx glyph x y _ _ _ _
                Hget Hcan Hfull Hm (proj1 Hinv) Hbg Hfg) as (this2 & H2 & Heq).
    rewrite (drawToCache_calls host (withCacheMap this rest) glyph _ _ _ Hbg Hfg) in H2.
    injection H2 as <-.
    cbv zeta in Heq. rewrite Heq in Hdraw. injection Hdraw as <- <- _.
    simpl _tmpCtx.
    apply (Hblit rest (snd e)).
    destruct Hinv as (_ & _ & Hbound & Hsz).
    assert (Hin : In (snd e) (JsMap.values (_cacheMap this)))
      by (rewrite Hm; now left).
    apply Hbound in Hin. lia.
Qed.

(** X12.  Calls of [draw] never change what the constructor set up: on
    every reachable atlas (positive cell dimensions) the configuration,
    the size of the scratch canvas, the grid, the capacity and the size
    of the texture are those of the new atlas. *)
Theorem draw_keeps_configuration (config : ICharAtlasConfig host) this :
  0 < scaledCharWidth config -> 0 < scaledCharHeight config ->
  reachable config this ->
  _config this = config /\
  _tmpCanvas this = _tmpCanvas (newDynamicCharAtlas config) /\
  _width this = _width (newDynamicCharAtlas config) /\
  _height this = _height (newDynamicCharAtlas config) /\
  _capacity this = _capacity (newDynamicCharAtlas config) /\
  cvWidth (_cacheCanvas this) = TEXTURE_WIDTH /\
  cvHeight (_cacheCanvas this) = TEXTURE_HEIGHT.
Proof.
  intros Hcw Hch Hreach.
  destruct (reachable_invariant host _ _ Hcw Hch Hreach) as [Hb _].
  pose proof (builtFor_capacity host _ _ Hb) as Hcap.
  destruct Hb as (H1 & H2 & H3 & H4 & _ & H6 & H7).
  repeat split; assumption.
Qed.

End CacheFacts.

(* ================================================================== *)
(** * Examples of the further properties *)

(** Four cells; the run of [Demo.calls] followed by e and b evicts b,
    then a: the cache ends with c, d, e, b. *)
Lemma lru_holds_most_recent_witness :
  1 <= _capacity (newDynamicCharAtlas Demo.fourCells) /\
  Forall (fun c => _canCache (callGlyph c) = true ->
                   rasterizable Demo.fourCells (callGlyph c))
         (Demo.calls ++ [Demo.callOf Demo.glyphE; Demo.callOf Demo.glyphB]) /\
  exists this' ctx',
    drawAll (newDynamicCharAtlas Demo.fourCells) []
            (Demo.calls ++ [Demo.callOf Demo.glyphE; Demo.callOf Demo.glyphB]) =
      Normal (this', ctx', [true; true; true; false; true; true; true; true]) /\
    JsMap.keys (_cacheMap this') =
      map getGlyphCacheKey [Demo.glyphC; Demo.glyphD; Demo.glyphE; Demo.glyphB].
Proof.
  assert (H1 : 1 <= _capacity (newDynamicCharAtlas Demo.fourCells))
    by (apply Z.leb_le; vm_compute; reflexivity).
  assert (H2 : Forall (fun c => _canCache (callGlyph c) = true ->
                               rasterizable Demo.fourCells (callGlyph c))
                 (Demo.calls ++ [Demo.callOf Demo.glyphE; Demo.callOf Demo.glyphB]))
    by (repeat constructor; vm_compute; discriminate).
  split; [exact H1 | split; [exact H2 |]].
  destruct (lru_holds_most_recent Demo.host Demo.fourCells [] _ H1 H2)
    as (this' & ctx' & Hrun & Hkeys).
  exists this', ctx'. split; [exact Hrun |].
  rewrite Hkeys. vm_compute. reflexivity.
Defined.

(** After a, the admission of b leaves b as the last entry. *)
Lemma draw_true_most_recent_witness :
  draw (Demo.atlasAfter Demo.fourCells [Demo.callOf Demo.glyphA]) (Demo.ctxAfter Demo.fourCells [Demo.callOf Demo.glyphA])
       Demo.glyphB 0 0 =
    Normal (Demo.atlasAfter Demo.fourCells [Demo.callOf Demo.glyphA; Demo.callOf Demo.glyphB],
            Demo.ctxAfter Demo.fourCells [Demo.callOf Demo.glyphA; Demo.callOf Demo.glyphB], true) /\
  exists older index,
    _cacheMap (Demo.atlasAfter Demo.fourCells [Demo.callOf Demo.glyphA; Demo.callOf Demo.glyphB]) = older ++ [(Demo.keyB, index)].
Proof.
  assert (H : draw (Demo.atlasAfter Demo.fourCells [Demo.callOf Demo.glyphA]) (Demo.ctxAfter Demo.fourCells [Demo.callOf Demo.glyphA])
                   Demo.glyphB 0 0 =
              Normal (Demo.atlasAfter Demo.fourCells [Demo.callOf Demo.glyphA; Demo.callOf Demo.glyphB],
                      Demo.ctxAfter Demo.fourCells [Demo.callOf Demo.glyphA; Demo.callOf Demo.glyphB], true))
    by (apply (run_step Demo.fourCells [Demo.callOf Demo.glyphA] (Demo.callOf Demo.glyphB) [true] true); lazy; reflexivity).
  split; [exact H |].
  destruct (draw_true_most_recent Demo.host _ _ _ _ _ _ _ H)
    as (older & index & Hm & _).
  exists older, index. exact Hm.
Defined.

(** The wide glyph is refused on the full atlas. *)
Lemma uncacheable_never_cached_witness :
  reachable Demo.fourCells Demo.full /\
  _canCache Demo.glyphWide = false /\
  draw Demo.full [] Demo.glyphWide 0 0 = Normal (Demo.full, [], false).
Proof.
  assert (H1 : reachable Demo.fourCells Demo.full) by apply atlasAfter_reachable.
  assert (H2 : _canCache Demo.glyphWide = false) by reflexivity.
  split; [exact H1 | split; [exact H2 |]].
  exact (proj2 (uncacheable_never_cached Demo.host Demo.fourCells Demo.full []
                  Demo.glyphWide 0 0 H1 H2)).
Defined.

(** After a, the admission of b is the second rasterization. *)
Lemma draw_counts_rasterizations_witness :
  draw (Demo.atlasAfter Demo.fourCells [Demo.callOf Demo.glyphA]) (Demo.ctxAfter Demo.fourCells [Demo.callOf Demo.glyphA])
       Demo.glyphB 0 0 =
    Normal (Demo.atlasAfter Demo.fourCells [Demo.callOf Demo.glyphA; Demo.callOf Demo.glyphB],
            Demo.ctxAfter Demo.fourCells [Demo.callOf Demo.glyphA; Demo.callOf Demo.glyphB], true) /\
  rasterizations (Demo.atlasAfter Demo.fourCells [Demo.callOf Demo.glyphA; Demo.callOf Demo.glyphB]) = 2%nat.
Proof.
  assert (H : draw (Demo.atlasAfter Demo.fourCells [Demo.callOf Demo.glyphA]) (Demo.ctxAfter Demo.fourCells [Demo.callOf Demo.glyphA])
                   Demo.glyphB 0 0 =
              Normal (Demo.atlasAfter Demo.fourCells [Demo.callOf Demo.glyphA; Demo.callOf Demo.glyphB],
                      Demo.ctxAfter Demo.fourCells [Demo.callOf Demo.glyphA; Demo.callOf Demo.glyphB], true))
    by (apply (run_step Demo.fourCells [Demo.callOf Demo.glyphA] (Demo.callOf Demo.glyphB) [true] true); lazy; reflexivity).
  split; [exact H |].
  rewrite (draw_counts_rasterizations Demo.host _ _ _ _ _ _ _ _ H).
  lazy. reflexivity.
Defined.

(** With a cell of 1025 by 16 the atlas has no slot. *)
Lemma no_slot_nothing_cached_witness :
  _capacity (newDynamicCharAtlas Demo.noCell) <= 0 /\
  reachable Demo.noCell (newDynamicCharAtlas Demo.noCell) /\
  draw (newDynamicCharAtlas Demo.noCell) [] Demo.glyphA 0 0 = Throw TypeError /\
  draw (newDynamicCharAtlas Demo.noCell) [] Demo.glyphWide 0 0 =
    Normal (newDynamicCharAtlas Demo.noCell, [], false).
Proof.
  assert (H1 : _capacity (newDynamicCharAtlas Demo.noCell) <= 0) by discriminate.
  assert (H2 : reachable Demo.noCell (newDynamicCharAtlas Demo.noCell))
    by apply reach_new.
  split; [exact H1 | split; [exact H2 |]].
  split.
  - exact (proj2 (no_slot_nothing_cached Demo.host Demo.noCell _ H1 H2)
             [] Demo.glyphA 0 0).
  - exact (proj2 (no_slot_nothing_cached Demo.host Demo.noCell _ H1 H2)
             [] Demo.glyphWide 0 0).
Defined.

(** Slot 3 of the full atlas of four cells is in use. *)
Lemma slots_are_contiguous_witness :
  0 < scaledCharWidth Demo.fourCells /\
  0 < scaledCharHeight Demo.fourCells /\
  reachable Demo.fourCells Demo.full /\
  exists k, JsMap.get k (_cacheMap Demo.full) = Some 3.
Proof.
  assert (H1 : 0 < scaledCharWidth Demo.fourCells) by reflexivity.
  assert (H2 : 0 < scaledCharHeight Demo.fourCells) by reflexivity.
  assert (H3 : reachable Demo.fourCells Demo.full) by apply atlasAfter_reachable.
  repeat (split; [assumption |]).
  apply (proj2 (slots_are_contiguous Demo.host Demo.fourCells Demo.full H1 H2 H3 3)).
  split; [discriminate | apply Z.ltb_lt; lazy; reflexivity].
Defined.

(** The admission of b after a grows the cache map. *)
Lemma cache_never_shrinks_witness :
  0 < scaledCharWidth Demo.fourCells /\
  0 < scaledCharHeight Demo.fourCells /\
  reachable Demo.fourCells (Demo.atlasAfter Demo.fourCells [Demo.callOf Demo.glyphA]) /\
  draw (Demo.atlasAfter Demo.fourCells [Demo.callOf Demo.glyphA]) (Demo.ctxAfter Demo.fourCells [Demo.callOf Demo.glyphA])
       Demo.glyphB 0 0 =
    Normal (Demo.atlasAfter Demo.fourCells [Demo.callOf Demo.glyphA; Demo.callOf Demo.glyphB],
            Demo.ctxAfter Demo.fourCells [Demo.callOf Demo.glyphA; Demo.callOf Demo.glyphB], true) /\
  JsMap.size (_cacheMap (Demo.atlasAfter Demo.fourCells [Demo.callOf Demo.glyphA]))
    <= JsMap.size (_cacheMap (Demo.atlasAfter Demo.fourCells [Demo.callOf Demo.glyphA; Demo.callOf Demo.glyphB]))
    <= JsMap.size (_cacheMap (Demo.atlasAfter Demo.fourCells [Demo.callOf Demo.glyphA])) + 1.
Proof.
  assert (H1 : 0 < scaledCharWidth Demo.fourCells) by reflexivity.
  assert (H2 : 0 < scaledCharHeight Demo.fourCells) by reflexivity.
  assert (H3 : reachable Demo.fourCells (Demo.atlasAfter Demo.fourCells [Demo.callOf Demo.glyphA]))
    by apply atlasAfter_reachable.
  assert (H4 : draw (Demo.atlasAfter Demo.fourCells [Demo.callOf Demo.glyphA]) (Demo.ctxAfter Demo.fourCells [Demo.callOf Demo.glyphA])
                    Demo.glyphB 0 0 =
               Normal (Demo.atlasAfter Demo.fourCells [Demo.callOf Demo.glyphA; Demo.callOf Demo.glyphB],
                       Demo.ctxAfter Demo.fourCells [Demo.callOf Demo.glyphA; Demo.callOf Demo.glyphB], true))
    by (apply (run_step Demo.fourCells [Demo.callOf Demo.glyphA] (Demo.callOf Demo.glyphB) [true] true); lazy; reflexivity).
  repeat (split; [assumption |]).
  exact (proj1 (proj2 (cache_never_shrinks Demo.host Demo.fourCells _ _ _ _ _ _ _ _
                         H1 H2 H3 H4))).
Defined.

(** The first draw of a on a new atlas delivers the rasterized a. *)
Lemma admission_blits_rasterized_glyph_witness :
  0 < scaledCharWidth Demo.fourCells /\
  0 < scaledCharHeight Demo.fourCells /\
  reachable Demo.fourCells (Demo.atlasAfter Demo.fourCells []) /\
  JsMap.get Demo.keyA (_cacheMap (Demo.atlasAfter Demo.fourCells [])) = None /\
  _canCache Demo.glyphA = true /\
  backgroundColorOf Demo.fourCells Demo.glyphA = Some (mkColor (lit "ansi0") 255) /\
  draw (Demo.atlasAfter Demo.fourCells []) (Demo.ctxAfter Demo.fourCells [])
       Demo.glyphA 0 0 =
    Normal (Demo.atlasAfter Demo.fourCells [Demo.callOf Demo.glyphA], Demo.ctxAfter Demo.fourCells [Demo.callOf Demo.glyphA], true) /\
  Demo.ctxAfter Demo.fourCells [Demo.callOf Demo.glyphA] =
    Demo.ctxAfter Demo.fourCells [] ++
    [DrawImage
       (clearColor
          (getImageData (_tmpCanvas (Demo.atlasAfter Demo.fourCells []))
             (_tmpCtx (Demo.atlasAfter Demo.fourCells [Demo.callOf Demo.glyphA])) 0 0
             (scaledCharWidth Demo.fourCells) (scaledCharHeight Demo.fourCells))
          (mkColor (lit "ansi0") 255))
       0 0 (scaledCharWidth Demo.fourCells) (scaledCharHeight Demo.fourCells)].
Proof.
  assert (H1 : 0 < scaledCharWidth Demo.fourCells) by reflexivity.
  assert (H2 : 0 < scaledCharHeight Demo.fourCells) by reflexivity.
  assert (H3 : reachable Demo.fourCells (Demo.atlasAfter Demo.fourCells []))
    by apply atlasAfter_reachable.
  assert (H4 : JsMap.get Demo.keyA (_cacheMap (Demo.atlasAfter Demo.fourCells [])) = None)
    by reflexivity.
  assert (H5 : _canCache Demo.glyphA = true) by reflexivity.
  assert (H6 : backgroundColorOf Demo.fourCells Demo.glyphA
               = Some (mkColor (lit "ansi0") 255)) by reflexivity.
  assert (H7 : draw (Demo.atlasAfter Demo.fourCells []) (Demo.ctxAfter Demo.fourCells [])
                    Demo.glyphA 0 0 =
               Normal (Demo.atlasAfter Demo.fourCells [Demo.callOf Demo.glyphA],
                       Demo.ctxAfter Demo.fourCells [Demo.callOf Demo.glyphA], true))
    by (apply (run_step Demo.fourCells [] (Demo.callOf Demo.glyphA) [] true); lazy; reflexivity).
  do 7 (split; [assumption |]).
  exact (proj2 (admission_blits_rasterized_glyph Demo.host Demo.fourCells _ _ _ _ _ _ _ _ _
                  H1 H2 H3 H4 H5 H6 H7)).
Defined.

(** With cells of 8 by 16, slot 130 fits in the texture. *)
Lemma cell_fits_iff_slot_witness :
  gridOf (newDynamicCharAtlas Demo.ordinary) /\
  0 < _width (newDynamicCharAtlas Demo.ordinary) /\
  0 <= 130 /\
  fst (_toCoordinates (newDynamicCharAtlas Demo.ordinary) 130)
    + scaledCharWidth (_config (newDynamicCharAtlas Demo.ordinary))
    <= cvWidth (_cacheCanvas (newDynamicCharAtlas Demo.ordinary)) /\
  snd (_toCoordinates (newDynamicCharAtlas Demo.ordinary) 130)
    + scaledCharHeight (_config (newDynamicCharAtlas Demo.ordinary))
    <= cvHeight (_cacheCanvas (newDynamicCharAtlas Demo.ordinary)).
Proof.
  assert (H1 : gridOf (newDynamicCharAtlas Demo.ordinary))
    by (unfold gridOf; repeat split; first [reflexivity | discriminate]).
  assert (H2 : 0 < _width (newDynamicCharAtlas Demo.ordinary)) by reflexivity.
  assert (H3 : 0 <= 130) by discriminate.
  repeat (split; [assumption |]).
  apply (proj2 (cell_fits_iff_slot Demo.host _ 130 H1 H2 H3)). reflexivity.
Defined.

(** Shifting the map that holds a, then b. *)
Lemma mapShift_oldest_witness :
  NoDup (JsMap.keys [(Demo.keyA, 0); (Demo.keyB, 1)]) /\
  mapShift [(Demo.keyA, 0); (Demo.keyB, 1)] = (Some (Demo.keyA, 0), [(Demo.keyB, 1)]).
Proof.
  assert (H : NoDup (JsMap.keys [(Demo.keyA, 0); (Demo.keyB, 1)])).
  { constructor; [| repeat constructor; intros []].
    intros [Heq | []]. vm_compute in Heq. discriminate Heq. }
  split; [exact H |].
  exact (proj1 (proj2 (mapShift_oldest Z _ H) _ _ eq_refl)).
Defined.

(** On the full atlas of four cells, the draw of e completes. *)
Lemma draw_completes_witness :
  0 < scaledCharWidth Demo.fourCells /\
  0 < scaledCharHeight Demo.fourCells /\
  reachable Demo.fourCells Demo.full /\
  1 <= _capacity Demo.full /\
  (_canCache Demo.glyphE = true -> rasterizable Demo.fourCells Demo.glyphE) /\
  exists this' ctx' hit,
    draw Demo.full [] Demo.glyphE 0 0 = Normal (this', ctx', hit).
Proof.
  assert (H1 : 0 < scaledCharWidth Demo.fourCells) by reflexivity.
  assert (H2 : 0 < scaledCharHeight Demo.fourCells) by reflexivity.
  assert (H3 : reachable Demo.fourCells Demo.full) by apply atlasAfter_reachable.
  assert (H4 : 1 <= _capacity Demo.full) by (apply Z.leb_le; lazy; reflexivity).
  assert (H5 : _canCache Demo.glyphE = true -> rasterizable Demo.fourCells Demo.glyphE)
    by (intros _; split; vm_compute; discriminate).
  repeat (split; [assumption |]).
  exact (draw_completes Demo.host Demo.fourCells Demo.full [] Demo.glyphE 0 0
           H1 H2 H3 H4 H5).
Defined.

(** The full atlas of four cells still has the capacity of a new one. *)
Lemma draw_keeps_configuration_witness :
  0 < scaledCharWidth Demo.fourCells /\
  0 < scaledCharHeight Demo.fourCells /\
  reachable Demo.fourCells Demo.full /\
  _capacity Demo.full = _capacity (newDynamicCharAtlas Demo.fourCells).
Proof.
  assert (H1 : 0 < scaledCharWidth Demo.fourCells) by reflexivity.
  assert (H2 : 0 < scaledCharHeight Demo.fourCells) by reflexivity.
  assert (H3 : reachable Demo.fourCells Demo.full) by apply atlasAfter_reachable.
  do 3 (split; [assumption |]).
  apply (draw_keeps_configuration Demo.host Demo.fourCells Demo.full H1 H2 H3).
Defined.

(* ================================================================== *)
(** * The object after a call that throws *)

Section ObjectFacts.
Variable host : Host.
Implicit Types (this : DynamicCharAtlas host) (glyph : IGlyphIdentifier) (ctx : Ctx).

(* ------------------------------------------------------------------ *)
(** ** Completions and outcomes agree *)

(** [_drawToCacheOutcome] completes as [_drawToCache] does and, when it
    returns, leaves the atlas that [_drawToCache] gives. *)
Lemma drawToCacheOutcome_completion this glyph index :
  _drawToCache this glyph index =
  match _drawToCacheOutcome this glyph index with
  | (Normal _, this') => Normal this'
  | (Throw e, _) => Throw e
  end.
Proof.
  unfold _drawToCache, _drawToCacheOutcome.
  destruct (backgroundColorOf (_config this) glyph); cbn [bind member]; [| reflexivity].
  destruct (foregroundColorOf (_config this) glyph); cbn [bind member]; [| reflexivity].
  destruct (_toCoordinates this index). reflexivity.
Qed.

(** [drawOutcome] completes as [draw] does and, when it returns, leaves
    the atlas and the destination that [draw] gives. *)
Lemma drawOutcome_completion this ctx glyph x y :
  draw this ctx glyph x y =
  match drawOutcome this ctx glyph x y with
  | (Normal hit, this', ctx') => Normal (this', ctx', hit)
  | (Throw e, _, _) => Throw e
  end.
Proof.
  unfold draw, drawOutcome.
  destruct (JsMap.get (getGlyphCacheKey glyph) (_cacheMap this)); [reflexivity |].
  destruct (_canCache glyph); [| reflexivity].
  destruct (JsMap.size (_cacheMap this) <? _capacity this).
  - cbn [bind]. unfold admitOutcome. rewrite drawToCacheOutcome_completion.
    destruct (_drawToCacheOutcome this glyph (JsMap.size (_cacheMap this)))
      as [[[] | e] this2]; reflexivity.
  - destruct (mapShift (_cacheMap this)) as [[e |] m]; cbn [bind member]; [| reflexivity].
    unfold admitOutcome. rewrite drawToCacheOutcome_completion.
    destruct (_drawToCacheOutcome (withCacheMap this m) glyph (snd e))
      as [[[] | e'] this2]; reflexivity.
Qed.

Lemma drawOutcome_Normal this ctx glyph x y this' ctx' hit :
  drawOutcome this ctx glyph x y = (Normal hit, this', ctx') <->
  draw this ctx glyph x y = Normal (this', ctx', hit).
Proof.
  rewrite drawOutcome_completion.
  destruct (drawOutcome this ctx glyph x y) as [[[h | e] t] c]; split; intros H;
    try discriminate; now injection H as <- <- <-.
Qed.

Lemma drawOutcome_Throw this ctx glyph x y e :
  (exists this' ctx', drawOutcome this ctx glyph x y = (Throw e, this', ctx')) <->
  draw this ctx glyph x y = Throw e.
Proof.
  rewrite drawOutcome_completion.
  destruct (drawOutcome this ctx glyph x y) as [[[h | e'] t] c]; split.
  - intros (? & ? & H). discriminate.
  - discriminate.
  - intros (? & ? & H). now injection H as <- _ _.
  - intros [= ->]. eauto.
Qed.

(** An atlas reached without an exception is a state of the object. *)
Lemma reachable_attainable (config : ICharAtlasConfig host) this :
  reachable config this -> attainable config this.
Proof.
  induction 1 as [| this ctx glyph x y this' ctx' hit _ IH Hdraw].
  - apply attain_new.
  - eapply attain_draw; [exact IH |]. apply drawOutcome_Normal. exact Hdraw.
Qed.

Lemma drawEach_attainable (config : ICharAtlasConfig host) calls :
  forall this ctx,
    attainable config this ->
    attainable config (fst (fst (drawEach this ctx calls))).
Proof.
  induction calls as [| c r IH]; intros this ctx Hat; [exact Hat |].
  cbn [drawEach].
  destruct (drawOutcome this ctx (callGlyph c) (callX c) (callY c))
    as [[result this1] ctx1] eqn:Hout.
  assert (Hat1 : attainable config this1) by (eapply attain_draw; eauto).
  specialize (IH this1 ctx1 Hat1).
  destruct (drawEach this1 ctx1 r) as [[this2 ctx2] results]. exact IH.
Qed.

(* ------------------------------------------------------------------ *)
(** ** What a throwing call leaves *)

Lemma rasterizations_app this (ops : list (Op host)) :
  rasterizations (withCanvases this (_cacheCanvas this) (_tmpCtx this ++ ops)) =
  (rasterizations this
   + length (filter (fun op => match op with FillText _ _ _ => true | _ => false end) ops))%nat.
Proof. unfold rasterizations. simpl. now rewrite filter_app, length_app. Qed.

(** [_drawToCache] throws for a colour that is [undefined] only; it
    leaves the scratch context with calls that draw no text and every
    other field as it was. *)
Lemma drawToCacheOutcome_Throw_inv this glyph index e this' :
  _drawToCacheOutcome this glyph index = (Throw e, this') ->
  ~ rasterizable (_config this) glyph /\
  this' = withCanvases this (_cacheCanvas this) (_tmpCtx this') /\
  rasterizations this' = rasterizations this.
Proof.
  unfold _drawToCacheOutcome, rasterizable.
  destruct (backgroundColorOf (_config this) glyph) as [fill |].
  - destruct (foregroundColorOf (_config this) glyph) as [ink |].
    + destruct (_toCoordinates this index). discriminate.
    + intros [= _ <-]. split; [tauto | split; [reflexivity |]].
      unfold rasterizations. cbn [_tmpCtx withCanvases].
      destruct (bold glyph); repeat rewrite filter_app; repeat rewrite length_app;
        cbn [filter Datatypes.length]; rewrite ?Nat.add_0_r; reflexivity.
  - intros [= _ <-]. split; [tauto | split; [reflexivity |]].
    unfold rasterizations. cbn [_tmpCtx withCanvases].
    rewrite filter_app, length_app. cbn [filter Datatypes.length]. rewrite ?Nat.add_0_r. reflexivity.
Qed.

(** A call of [draw] that throws was admitting a cacheable glyph that was
    not resident.  It leaves the destination, the atlas canvas and the
    grid as they were, and the cache map as it was or, when it had to
    evict, without its oldest entry. *)
Lemma drawOutcome_Throw_inv this ctx glyph x y e this' ctx' :
  drawOutcome this ctx glyph x y = (Throw e, this', ctx') ->
  ctx' = ctx /\
  JsMap.get (getGlyphCacheKey glyph) (_cacheMap this) = None /\
  _canCache glyph = true /\
  this' = mkAtlas (_config this) (_cacheMap this') (_cacheCanvas this)
            (_tmpCanvas this) (_tmpCtx this') (_capacity this)
            (_width this) (_height this) /\
  rasterizations this' = rasterizations this /\
  (~ rasterizable (_config this) glyph /\ _cacheMap this' = _cacheMap this /\
   JsMap.size (_cacheMap this) < _capacity this \/
   _cacheMap this = [] /\ _cacheMap this' = [] /\
   ~ JsMap.size (_cacheMap this) < _capacity this \/
   ~ rasterizable (_config this) glyph /\
   ~ JsMap.size (_cacheMap this) < _capacity this /\
   exists oldest rest,
     _cacheMap this = oldest :: rest /\
     _cacheMap this' = JsMap.delete (fst oldest) (oldest :: rest)).
Proof.
  unfold drawOutcome.
  destruct (JsMap.get (getGlyphCacheKey glyph) (_cacheMap this)) eqn:Hget; [discriminate |].
  destruct (_canCache glyph) eqn:Hcan; [| discriminate].
  destruct (JsMap.size (_cacheMap this) <? _capacity this) eqn:Hsize.
  - apply Z.ltb_lt in Hsize. unfold admitOutcome.
    destruct (_drawToCacheOutcome this glyph (JsMap.size (_cacheMap this)))
      as [[[] | e'] this2] eqn:Hout; [discriminate |].
    intros [= -> -> <-].
    destruct (drawToCacheOutcome_Throw_inv _ _ _ _ _ Hout) as (Hnot & Hthis & Hr).
    split; [reflexivity | split; [reflexivity | split; [reflexivity |]]].
    assert (Hm' : _cacheMap this' = _cacheMap this) by (rewrite Hthis; reflexivity).
    split; [| split; [exact Hr |]].
    + rewrite Hm'. exact Hthis.
    + left. auto.
  - apply Z.ltb_nlt in Hsize. unfold mapShift.
    destruct (JsMap.firstEntry (_cacheMap this)) as [oldest |] eqn:Hfirst.
    + assert (Hshape : exists rest, _cacheMap this = oldest :: rest).
      { revert Hfirst. destruct (_cacheMap this) as [| e0 rest]; [discriminate |].
        intros [= ->]. eauto. }
      destruct Hshape as [rest Hm].
      unfold admitOutcome.
      destruct (_drawToCacheOutcome
                  (withCacheMap this (JsMap.delete (fst oldest) (_cacheMap this)))
                  glyph (snd oldest))
        as [[[] | e'] this2] eqn:Hout; [discriminate |].
      intros [= -> -> <-].
      destruct (drawToCacheOutcome_Throw_inv _ _ _ _ _ Hout) as (Hnot & Hthis & Hr).
      assert (Hm' : _cacheMap this' = JsMap.delete (fst oldest) (_cacheMap this))
        by (rewrite Hthis; reflexivity).
      split; [reflexivity | split; [reflexivity | split; [reflexivity |]]].
      split; [| split; [exact Hr |]].
      * rewrite Hm'. exact Hthis.
      * right; right. split; [exact Hnot | split; [exact Hsize |]].
        exists oldest, rest. split; [exact Hm |]. now rewrite <- Hm.
    + assert (Hm : _cacheMap this = []).
      { revert Hfirst. destruct (_cacheMap this); [reflexivity | discriminate]. }
      intros [= <- <- <-].
      split; [reflexivity | split; [reflexivity | split; [reflexivity |]]].
      split; [destruct this; reflexivity |].
      split; [reflexivity |]. right; left. cbn. auto.
Qed.


(* ------------------------------------------------------------------ *)
(** ** What holds in every state of the object *)

Lemma mapInvariant_new (config : ICharAtlasConfig host) :
  0 < scaledCharWidth config -> 0 < scaledCharHeight config ->
  mapInvariant (newDynamicCharAtlas config).
Proof.
  intros Hw Hh. unfold mapInvariant.
  split; [constructor | split; [| contradiction]].
  change (JsMap.size (_cacheMap (newDynamicCharAtlas config))) with 0.
  now apply capacity_nonneg.
Qed.

Lemma mapInvariant_draw this ctx glyph x y this' ctx' hit :
  mapInvariant this ->
  draw this ctx glyph x y = Normal (this', ctx', hit) ->
  mapInvariant this'.
Proof.
  intros (Hk & Hs & Hb) Hdraw.
  destruct (draw_Normal_inv host _ _ _ _ _ _ _ _ Hk Hdraw)
    as [(index & Hget & _ & -> & _) | [(_ & _ & _ & -> & _) |
        (index & base & img & ops & Hget & _ & _ & Hslot & _ & _ & _ & -> & _)]].
  - (* hit: the entries are permuted *)
    pose proof (delete_reinsert_Permutation _ _ _ _ Hk Hget) as Hp.
    unfold mapInvariant. cbn [_cacheMap _capacity withCacheMap].
    split; [| split].
    + apply (Permutation_NoDup (l := JsMap.keys (_cacheMap this))); [| exact Hk].
      apply Permutation_sym, Permutation_map, Hp.
    + unfold JsMap.size. rewrite (Permutation_length Hp). exact Hs.
    + intros v Hin. apply Hb. revert Hin. apply Permutation_in.
      apply Permutation_map, Hp.
  - exact (conj Hk (conj Hs Hb)).
  - unfold mapInvariant. cbn [_cacheMap _capacity]. apply get_None in Hget.
    destruct Hslot as [(Hfree & -> & ->) | (Hfull & e & Hm & ->)].
    + (* a free slot *)
      rewrite keys_app, values_app, size_app.
      change (JsMap.size [(getGlyphCacheKey glyph, JsMap.size (_cacheMap this))]) with 1.
      split; [| split].
      * apply NoDup_app; [assumption | repeat constructor; auto |].
        intros a Ha [<- | []]. contradiction.
      * lia.
      * intros v Hin. apply in_app_or in Hin. destruct Hin as [Hin | [<- | []]].
        -- now apply Hb.
        -- pose proof (size_nonneg _ (_cacheMap this)). cbn [snd]. lia.
    + (* eviction: the oldest entry leaves, its slot is taken over *)
      rewrite Hm in *. rewrite keys_app, values_app, size_app.
      change (JsMap.size [(getGlyphCacheKey glyph, snd e)]) with 1.
      assert (Hsz : JsMap.size (e :: base) = JsMap.size base + 1)
        by (unfold JsMap.size; simpl length; lia).
      apply NoDup_cons_iff in Hk. destruct Hk as [_ Hk].
      split; [| split].
      * apply NoDup_app; [assumption | repeat constructor; auto |].
        intros a Ha [<- | []]. apply Hget. now right.
      * lia.
      * intros v Hin. apply in_app_or in Hin. destruct Hin as [Hin | [<- | []]].
        -- apply Hb. now right.
        -- cbn [snd]. apply Hb. now left.
Qed.

(** The fields set by the constructor and the three facts of
    [mapInvariant] hold in every state of the object. *)
Lemma attainable_invariant (config : ICharAtlasConfig host) this :
  0 < scaledCharWidth config -> 0 < scaledCharHeight config ->
  attainable config this -> builtFor config this /\ mapInvariant this.
Proof.
  intros Hw Hh Hat.
  induction Hat as [| this ctx glyph x y result this' ctx' Hat [IHb IHm] Hout].
  - split; [apply builtFor_new | now apply mapInvariant_new].
  - destruct result as [hit | e].
    + apply drawOutcome_Normal in Hout. split.
      * eapply builtFor_draw; eauto. apply IHm.
      * eapply mapInvariant_draw; eauto.
    + destruct (drawOutcome_Throw_inv _ _ _ _ _ _ _ _ Hout)
        as (_ & _ & _ & Hthis & _ & Hmap).
      split.
      * rewrite Hthis. exact IHb.
      * destruct IHm as (Hk & Hs & Hb). unfold mapInvariant.
        rewrite Hthis. cbn [_cacheMap _capacity].
        destruct Hmap as [(_ & -> & _) | [(_ & -> & _) | (_ & _ & oldest & rest & Hm & ->)]].
        -- auto.
        -- split; [constructor | split; [| contradiction]].
           pose proof (size_nonneg _ (_cacheMap this)). unfold JsMap.size in *. simpl. lia.
        -- rewrite Hm in *. rewrite delete_head by exact Hk.
           apply NoDup_cons_iff in Hk. destruct Hk as [_ Hk].
           split; [exact Hk | split].
           ++ unfold JsMap.size in *. simpl length in Hs. lia.
           ++ intros v Hin. apply Hb. now right.
Qed.

(** X13.  Whatever the calls of [draw] on an atlas did, and whether they
    completed or threw (positive cell dimensions): the keys of the cache
    map are distinct, its size is at most the capacity, every slot bound
    in it lies in [0, _capacity), and the capacity is the one the
    constructor computed. *)
Theorem object_keeps_capacity_bounds (config : ICharAtlasConfig host) this :
  0 < scaledCharWidth config -> 0 < scaledCharHeight config ->
  attainable config this ->
  NoDup (JsMap.keys (_cacheMap this)) /\
  JsMap.size (_cacheMap this) <= _capacity this /\
  (forall k v, JsMap.get k (_cacheMap this) = Some v -> 0 <= v < _capacity this) /\
  _capacity this = _capacity (newDynamicCharAtlas config).
Proof.
  intros Hw Hh Hat.
  destruct (attainable_invariant _ _ Hw Hh Hat) as [Hb (Hk & Hs & Hv)].
  split; [exact Hk | split; [exact Hs | split]].
  - intros k v Hget. apply Hv. apply get_Some_In in Hget.
    change v with (snd (k, v)). now apply in_map.
  - destruct Hb as (_ & _ & Hwd & Hht & Hcap & _). rewrite Hcap, Hwd, Hht. reflexivity.
Qed.

(** X14.  A call of [draw] that throws (positive cell dimensions, any
    state of the object): the atlas has no slot or a colour of the glyph
    is [undefined]; the destination and the atlas canvas are as they
    were and nothing was rasterized; the key of the glyph is not bound;
    and the cache map is as it was or, when it was full, has lost its
    oldest entry, which the call removed before it threw. *)
Theorem throwing_draw_leaves (config : ICharAtlasConfig host)
        this ctx glyph x y e this' ctx' :
  0 < scaledCharWidth config -> 0 < scaledCharHeight config ->
  attainable config this ->
  drawOutcome this ctx glyph x y = (Throw e, this', ctx') ->
  (_capacity this = 0 \/ ~ rasterizable config glyph) /\
  ctx' = ctx /\
  _cacheCanvas this' = _cacheCanvas this /\
  rasterizations this' = rasterizations this /\
  JsMap.get (getGlyphCacheKey glyph) (_cacheMap this') = None /\
  (_cacheMap this' = _cacheMap this \/
   JsMap.size (_cacheMap this) = _capacity this /\
   exists oldest, _cacheMap this = oldest :: _cacheMap this').
Proof.
  intros Hw Hh Hat Hout.
  destruct (attainable_invariant _ _ Hw Hh Hat) as [Hb (Hk & Hs & _)].
  destruct (drawOutcome_Throw_inv _ _ _ _ _ _ _ _ Hout)
    as (Hctx & Hget & _ & Hthis & Hr & Hmap).
  assert (Hcfg : _config this = config) by apply Hb.
  assert (Hcv : _cacheCanvas this' = _cacheCanvas this) by (rewrite Hthis; reflexivity).
  destruct Hmap as [(Hnot & Hm & _) | [(Hm & Hm' & Hfull) | (Hnot & Hfull & oldest & rest & Hm & Hm')]].
  - rewrite Hcfg in Hnot. rewrite Hm. auto 10.
  - split; [left | rewrite Hm', Hm; auto 10].
    rewrite Hm in Hfull. change (JsMap.size []) with 0 in Hfull.
    assert (0 <= _capacity this); [| lia].
    destruct Hb as (_ & _ & Hwd & Hht & Hcap & _). rewrite Hcap, Hwd, Hht.
    apply (capacity_nonneg host config Hw Hh).
  - rewrite Hcfg in Hnot. rewrite Hm in Hk. rewrite delete_head in Hm' by exact Hk.
    split; [auto |]. split; [exact Hctx |]. split; [exact Hcv |]. split; [exact Hr |].
    split.
    + rewrite Hm'. rewrite Hm in Hget. revert Hget.
      unfold JsMap.get. simpl. destruct (JsMap.hasKey (getGlyphCacheKey glyph) oldest);
        [discriminate | auto].
    + right. split; [lia |]. exists oldest. now rewrite Hm'.
Qed.

End ObjectFacts.

(* ================================================================== *)
(** * Examples of a call that throws *)

(** C3.  On a new atlas of four cells (cells of 512 by 512), the calls of
    [Demo.calls] fill the cache: the slots are 1, 0, 2, 3 from the oldest
    key to the newest.  The next call draws a Latin-1 glyph whose
    background id (-2) names no colour: [draw] removes the oldest entry
    and then throws, which leaves the slots 0, 2, 3 in a map of size 3.
    The next call admits e: the size is below the capacity, so e takes
    the slot numbered by the size, 3, which d still owns.  Two distinct
    keys are then bound to slot 3. *)
Theorem throwing_draw_shares_slot :
  Demo.resultsAfter Demo.fourCells Demo.callsThrowing =
    [Normal true; Normal true; Normal true; Normal false; Normal true;
     Normal true; Throw TypeError; Normal true] /\
  attainable Demo.fourCells (Demo.objectAfter Demo.fourCells Demo.callsThrowing) /\
  JsMap.values (_cacheMap (Demo.objectAfter Demo.fourCells Demo.calls)) = [1; 0; 2; 3] /\
  JsMap.values (_cacheMap (Demo.objectAfter Demo.fourCells
                             (Demo.calls ++ [Demo.callOf Demo.glyphNoColour])))
    = [0; 2; 3] /\
  JsMap.keys (_cacheMap (Demo.objectAfter Demo.fourCells Demo.callsThrowing))
    = [Demo.keyA; Demo.keyC; Demo.keyD; Demo.keyE] /\
  JsMap.values (_cacheMap (Demo.objectAfter Demo.fourCells Demo.callsThrowing))
    = [0; 2; 3; 3] /\
  JsMap.get Demo.keyD (_cacheMap (Demo.objectAfter Demo.fourCells Demo.callsThrowing))
    = Some 3 /\
  JsMap.get Demo.keyE (_cacheMap (Demo.objectAfter Demo.fourCells Demo.callsThrowing))
    = Some 3 /\
  Demo.keyD <> Demo.keyE.
Proof.
  split; [lazy; reflexivity |].
  split; [unfold Demo.objectAfter; apply drawEach_attainable, attain_new |].
  split; [lazy; reflexivity |].
  split; [lazy; reflexivity |].
  split; [lazy; reflexivity |].
  split; [lazy; reflexivity |].
  split; [lazy; reflexivity |].
  split; [lazy; reflexivity |].
  intros H. apply getGlyphCacheKey_inj in H. discriminate H.
Qed.

(** C8.  On a new atlas of four cells, the calls of [Demo.calls] end with
    the admission of d into slot 3.  A call that throws after evicting
    the oldest key follows, then the admission of e, then a second
    [draw] of d.  The key of d is resident from its admission on: no call
    evicts it.  The second [draw] of d is a hit and rasterizes nothing,
    but the admission of e has written into slot 3, the cell of d: the
    image copied to the destination differs from the one the first
    [draw] of d copied (here at its top left pixel). *)
Theorem throwing_draw_changes_hit_pixels :
  Demo.resultsAfter Demo.fourCells (Demo.callsThrowing ++ [Demo.callOf Demo.glyphD]) =
    [Normal true; Normal true; Normal true; Normal false; Normal true;
     Normal true; Throw TypeError; Normal true; Normal true] /\
  JsMap.get Demo.keyD (_cacheMap (Demo.objectAfter Demo.fourCells Demo.calls))
    = Some 3 /\
  JsMap.get Demo.keyD
    (_cacheMap (Demo.objectAfter Demo.fourCells
                  (Demo.calls ++ [Demo.callOf Demo.glyphNoColour])))
    = Some 3 /\
  JsMap.get Demo.keyD (_cacheMap (Demo.objectAfter Demo.fourCells Demo.callsThrowing))
    = Some 3 /\
  JsMap.get Demo.keyD
    (_cacheMap (Demo.objectAfter Demo.fourCells
                  (Demo.callsThrowing ++ [Demo.callOf Demo.glyphD])))
    = Some 3 /\
  rasterizations (Demo.objectAfter Demo.fourCells
                    (Demo.callsThrowing ++ [Demo.callOf Demo.glyphD]))
    = rasterizations (Demo.objectAfter Demo.fourCells Demo.callsThrowing) /\
  Demo.lastBlit Demo.fourCells Demo.calls = Some (mkPixel 0 0 32 255) /\
  Demo.lastBlit Demo.fourCells (Demo.callsThrowing ++ [Demo.callOf Demo.glyphD])
    = Some (mkPixel 0 0 41 255).
Proof.
  do 7 (split; [lazy; reflexivity |]).
  lazy. reflexivity.
Qed.

(** The atlas left by [Demo.callsThrowing], in which a call threw, is a
    state of the object, and its map of four entries is within the
    capacity. *)
Lemma object_keeps_capacity_bounds_witness :
  0 < scaledCharWidth Demo.fourCells /\
  0 < scaledCharHeight Demo.fourCells /\
  attainable Demo.fourCells (Demo.objectAfter Demo.fourCells Demo.callsThrowing) /\
  JsMap.size (_cacheMap (Demo.objectAfter Demo.fourCells Demo.callsThrowing))
    <= _capacity (Demo.objectAfter Demo.fourCells Demo.callsThrowing).
Proof.
  assert (H1 : 0 < scaledCharWidth Demo.fourCells) by reflexivity.
  assert (H2 : 0 < scaledCharHeight Demo.fourCells) by reflexivity.
  assert (H3 : attainable Demo.fourCells
                 (Demo.objectAfter Demo.fourCells Demo.callsThrowing))
    by (unfold Demo.objectAfter; apply drawEach_attainable, attain_new).
  split; [exact H1 | split; [exact H2 | split; [exact H3 |]]].
  exact (proj1 (proj2 (object_keeps_capacity_bounds Demo.host Demo.fourCells _ H1 H2 H3))).
Defined.

(** The call that draws [Demo.glyphNoColour] on the full atlas left by
    [Demo.calls] throws; it has rasterized nothing. *)
Lemma throwing_draw_leaves_witness :
  0 < scaledCharWidth Demo.fourCells /\
  0 < scaledCharHeight Demo.fourCells /\
  attainable Demo.fourCells (Demo.objectAfter Demo.fourCells Demo.calls) /\
  fst (fst (drawOutcome (Demo.objectAfter Demo.fourCells Demo.calls) []
                        Demo.glyphNoColour 0 0)) = Throw TypeError /\
  rasterizations (snd (fst (drawOutcome (Demo.objectAfter Demo.fourCells Demo.calls) []
                                        Demo.glyphNoColour 0 0)))
    = rasterizations (Demo.objectAfter Demo.fourCells Demo.calls).
Proof.
  assert (H1 : 0 < scaledCharWidth Demo.fourCells) by reflexivity.
  assert (H2 : 0 < scaledCharHeight Demo.fourCells) by reflexivity.
  assert (H3 : attainable Demo.fourCells (Demo.objectAfter Demo.fourCells Demo.calls))
    by (unfold Demo.objectAfter; apply drawEach_attainable, attain_new).
  assert (H4 : fst (fst (drawOutcome (Demo.objectAfter Demo.fourCells Demo.calls) []
                                     Demo.glyphNoColour 0 0)) = Throw TypeError)
    by (lazy; reflexivity).
  split; [exact H1 | split; [exact H2 | split; [exact H3 | split; [exact H4 |]]]].
  assert (H5 : drawOutcome (Demo.objectAfter Demo.fourCells Demo.calls) []
                           Demo.glyphNoColour 0 0 =
               (Throw TypeError,
                snd (fst (drawOutcome (Demo.objectAfter Demo.fourCells Demo.calls) []
                                      Demo.glyphNoColour 0 0)),
                snd (drawOutcome (Demo.objectAfter Demo.fourCells Demo.calls) []
                                 Demo.glyphNoColour 0 0))).
  { rewrite <- H4.
    destruct (drawOutcome (Demo.objectAfter Demo.fourCells Demo.calls) []
                          Demo.glyphNoColour 0 0) as [[c t] d]. reflexivity. }
  exact (proj1 (proj2 (proj2 (proj2
           (throwing_draw_leaves Demo.host Demo.fourCells _ _ _ _ _ _ _ _ H1 H2 H3 H5))))).
Defined.
